(** * AutocompletePro: the matching, ranking and fallback engine

    A shallow embedding of [src/AutocompletePro.tsx] (with the records of
    [types.ts]) and the properties of its search engine, debouncer and
    selection handlers.

    Conventions of the embedding:
    - a JS string is a list of ASCII characters ([str]); [toLowerCase] folds
      the letters A-Z only, [\s] is the ASCII white space;
    - a JS number that is an integer in the program (lengths, [maxResults],
      [minQueryLength], [popularity]) is a [Z]; the fuzzy threshold and the
      similarity are exact rationals ([Q]); the one place where the program
      can produce NaN (0/0 in a similarity) is written out;
    - an array is a list; [Array.prototype.sort] is the stable sort that
      ECMAScript 2019 requires, and because it sorts in place every function
      that calls it also returns the array it was given;
    - React state is a record, an event handler a function on it; calls of
      the external collaborators ([onSearch], [onChange], [console.error])
      are appended to a log held in the state. *)

From Stdlib Require Import List Bool Arith ZArith QArith Ascii Lia Lqa.
From Stdlib Require String.
Import String.StringSyntax.
Bind Scope string_scope with String.string.
From Stdlib Require Import Permutation Sorted.
Import ListNotations.

Local Open Scope Z_scope.

(** ** Strings *)

Module Js.

Definition str := list ascii.

Definition lit (s : String.string) : str := String.list_ascii_of_string s.

Definition ascii_eqb (a b : ascii) : bool := Ascii.eqb a b.

Fixpoint str_eqb (a b : str) : bool :=
  match a, b with
  | [], [] => true
  | x :: a', y :: b' => ascii_eqb x y && str_eqb a' b'
  | _, _ => false
  end.

(** [String.prototype.toLowerCase], on ASCII. *)
Definition lower_char (c : ascii) : ascii :=
  let n := nat_of_ascii c in
  if ((65 <=? n) && (n <=? 90))%nat then ascii_of_nat (n + 32) else c.

Definition toLowerCase (s : str) : str := map lower_char s.

(** [String.prototype.startsWith]. *)
Fixpoint startsWith (s p : str) : bool :=
  match p, s with
  | [], _ => true
  | _ :: _, [] => false
  | x :: p', y :: s' => ascii_eqb x y && startsWith s' p'
  end.

(** [String.prototype.includes]: some suffix of [s] starts with [p]. *)
Fixpoint includes (s p : str) : bool :=
  startsWith s p ||
  match s with
  | [] => false
  | _ :: s' => includes s' p
  end.

(** [s.substring(i, j)] for [0 <= i <= j]. *)
Definition substring (s : str) (i j : nat) : str := firstn (j - i) (skipn i s).

(** The characters matched by the regular expression class [\s]. *)
Definition is_space (c : ascii) : bool :=
  let n := nat_of_ascii c in
  ((9 <=? n) && (n <=? 13) || (n =? 32))%nat.

(** [s.split(/\s+/)]: the pieces between maximal runs of white space; a
    leading or trailing run leaves an empty piece, and the empty string
    gives one empty piece. [prev] tells that the previous character was
    white space (the run is already open). *)
Fixpoint split_ws_from (prev : bool) (s : str) : list str :=
  match s with
  | [] => [[]]
  | c :: s' =>
      if is_space c then
        if prev then split_ws_from true s' else [] :: split_ws_from true s'
      else
        match split_ws_from false s' with
        | w :: ws => (c :: w) :: ws
        | [] => [[c]]
        end
  end.

Definition split_ws (s : str) : list str := split_ws_from false s.

(** [s.split(sep)] for a one-character separator: every occurrence cuts. *)
Fixpoint split_char (sep : ascii) (s : str) : list str :=
  match s with
  | [] => [[]]
  | c :: s' =>
      if ascii_eqb c sep then [] :: split_char sep s'
      else
        match split_char sep s' with
        | w :: ws => (c :: w) :: ws
        | [] => [[c]]
        end
  end.

(** [parts.join(sep)]. *)
Fixpoint join (sep : str) (parts : list str) : str :=
  match parts with
  | [] => []
  | [p] => p
  | p :: rest => p ++ sep ++ join sep rest
  end.

(** [arr.slice(0, e)] for an integer [e]: a negative end counts from the
    end of the array. *)
Definition slice0 {A} (l : list A) (e : Z) : list A :=
  let len := Z.of_nat (length l) in
  let k := if e <? 0 then Z.max (len + e) 0 else Z.min e len in
  firstn (Z.to_nat k) l.

(** [arr.findIndex(p)], -1 when nothing satisfies [p]. *)
Fixpoint findIndex_from {A} (p : A -> bool) (i : Z) (l : list A) : Z :=
  match l with
  | [] => -1
  | x :: l' => if p x then i else findIndex_from p (i + 1) l'
  end.

Definition findIndex {A} (p : A -> bool) (l : list A) : Z := findIndex_from p 0 l.

(** [arr.filter((x, index) => p x index)]. *)
Fixpoint filteri_from {A} (p : A -> Z -> bool) (i : Z) (l : list A) : list A :=
  match l with
  | [] => []
  | x :: l' =>
      if p x i then x :: filteri_from p (i + 1) l' else filteri_from p (i + 1) l'
  end.

Definition filteri {A} (p : A -> Z -> bool) (l : list A) : list A :=
  filteri_from p 0 l.

(** [arr.sort(cmp)] for a comparator returning a number (here an integer):
    the stable sort, [x] staying before [y] unless [cmp x y > 0]. *)
Fixpoint sort_insert {A} (cmp : A -> A -> Z) (x : A) (l : list A) : list A :=
  match l with
  | [] => [x]
  | y :: l' => if cmp x y <=? 0 then x :: l else y :: sort_insert cmp x l'
  end.

Fixpoint sort {A} (cmp : A -> A -> Z) (l : list A) : list A :=
  match l with
  | [] => []
  | x :: l' => sort_insert cmp x (sort cmp l')
  end.

End Js.

Import Js.

(** ** Edit distance ([levenshteinDistance], lines 49-67)

    The program fills a matrix with one row per character of [b] and one
    column per character of [a]; the rows are computed one after the other
    and only the previous row is read, so the embedding keeps one row. *)

(** Row 0: [matrix[0][i] = i]. *)
Definition lev_row0 (a : str) : list nat := seq 0 (S (length a)).

(** The cells [i >= 1] of a row: [left] is [matrix[j][i-1]], [diag] is
    [matrix[j-1][i-1]] and [ups] holds [matrix[j-1][i..]]. *)
Fixpoint lev_cells (bj : ascii) (a : str) (diag : nat) (ups : list nat)
    (left : nat) : list nat :=
  match a, ups with
  | ai :: a', up :: ups' =>
      let cost := if ascii_eqb ai bj then 0%nat else 1%nat in
      let v := Nat.min (Nat.min (left + 1) (up + 1)) (diag + cost) in
      v :: lev_cells bj a' up ups' v
  | _, _ => []
  end.

(** Row [j] from row [j-1]: [matrix[j][0] = j], then the cells. *)
Definition lev_next_row (a : str) (j : nat) (bj : ascii) (prev : list nat) : list nat :=
  match prev with
  | [] => []
  | d0 :: ups => j :: lev_cells bj a d0 ups j
  end.

Fixpoint lev_rows (a : str) (j : nat) (b : str) (prev : list nat) : list nat :=
  match b with
  | [] => prev
  | bj :: b' => lev_rows a (S j) b' (lev_next_row a (S j) bj prev)
  end.

(** [matrix[b.length][a.length]]. *)
Definition levenshteinDistance (a b : str) : nat :=
  last (lev_rows a 0 b (lev_row0 a)) 0%nat.

(** ** Fuzzy matching ([fuzzyMatch], lines 17-47) *)

(** [1 - distance / maxLength >= threshold]. When [maxLength] is 0 the
    distance is 0 too, the quotient is NaN and the comparison is false. *)
Definition similarity_ge (distance maxLength : nat) (threshold : Q) : bool :=
  if (maxLength =? 0)%nat then false
  else Qle_bool threshold
         (1 - inject_Z (Z.of_nat distance) / inject_Z (Z.of_nat maxLength)).

(** The inner loop over the windows of a word (lines 35-43). *)
Definition window_match (queryLower word : str) (threshold : Q) : bool :=
  if (length queryLower <=? length word)%nat then
    existsb
      (fun i =>
         let sub := substring word i (i + length queryLower) in
         similarity_ge (levenshteinDistance queryLower sub) (length queryLower) threshold)
      (seq 0 (S (length word - length queryLower)))
  else false.

Definition word_match (queryLower word : str) (threshold : Q) : bool :=
  similarity_ge (levenshteinDistance queryLower word)
                (Nat.max (length queryLower) (length word)) threshold
  || window_match queryLower word threshold.

Definition fuzzyMatch (query text : str) (threshold : Q) : bool :=
  let queryLower := toLowerCase query in
  let textLower := toLowerCase text in
  if includes textLower queryLower then true
  else existsb (fun word => word_match queryLower word threshold) (split_ws textLower).

(** ** Data model ([types.ts]) *)

Record AutocompleteOption := mkOption {
  id : str;
  label : str;
  value : str;
  category : option str;
  description : option str;
  image : option str;
  popularity : option Z;
  recent : option bool;
  trending : option bool
}.

Inductive Algorithm := Fuzzy | Exact | Semantic | Hybrid.

Record SearchConfig := mkConfig {
  algorithm : Algorithm;
  fuzzyThreshold : Q;
  minQueryLength : Z;
  maxResults : Z;
  debounceMs : nat;
  caseSensitive : bool;
  accentSensitive : bool
}.

Definition DEFAULT_SEARCH_CONFIG : SearchConfig :=
  {| algorithm := Hybrid; fuzzyThreshold := 1#2; minQueryLength := 1;
     maxResults := 10; debounceMs := 300%nat;
     caseSensitive := false; accentSensitive := false |}.

(** The names that [filterBy] may hold: the text fields of an option, and
    any name that is not a key of the option (it reads as [undefined]). *)
Inductive Field :=
  FId | FLabel | FValue | FCategory | FDescription | FImage | FUnknown.

Definition defaultFilterBy : list Field := [FLabel; FValue; FDescription].

(** [x || ''] for an optional text field. *)
Definition orEmpty (x : option str) : str :=
  match x with Some s => s | None => [] end.

(** [option[field] || '']. *)
Definition fieldText (f : Field) (o : AutocompleteOption) : str :=
  match f with
  | FId => id o
  | FLabel => label o
  | FValue => value o
  | FCategory => orEmpty (category o)
  | FDescription => orEmpty (description o)
  | FImage => orEmpty (image o)
  | FUnknown => []
  end.

(** [o.popularity || 0]. *)
Definition popularityOr0 (o : AutocompleteOption) : Z :=
  match popularity o with Some p => p | None => 0 end.

(** Truthiness of an optional boolean flag. *)
Definition truthy (b : option bool) : bool :=
  match b with Some true => true | _ => false end.

(** ** The search engine ([filterOptions], lines 128-175) *)

(** The comparator of line 133. *)
Definition popularityCmp (a b : AutocompleteOption) : Z :=
  popularityOr0 b - popularityOr0 a.

(** The comparator of lines 164-173. *)
Definition rankCmp (searchQuery : str) (a b : AutocompleteOption) : Z :=
  let aExact := startsWith (toLowerCase (label a)) (toLowerCase searchQuery) in
  let bExact := startsWith (toLowerCase (label b)) (toLowerCase searchQuery) in
  if aExact && negb bExact then -1
  else if negb aExact && bExact then 1
  else popularityOr0 b - popularityOr0 a.

(** The ranker: the [sort] call of line 164 on the matched options. *)
Definition rank (searchQuery : str) (matched : list AutocompleteOption) :
    list AutocompleteOption :=
  sort (rankCmp searchQuery) matched.

(** Line 136: keep an element when it is the first one with its id. *)
Definition dedupById (arr : list AutocompleteOption) : list AutocompleteOption :=
  filteri (fun opt index => findIndex (fun o => str_eqb (id o) (id opt)) arr =? index) arr.

(** Line 141. *)
Definition searchTextOf (filterBy : list Field) (o : AutocompleteOption) : str :=
  join (lit " ") (map (fun field => fieldText field o) filterBy).

(** The [switch] of lines 143-160. *)
Definition matchOption (config : SearchConfig) (filterBy : list Field)
    (searchQuery : str) (o : AutocompleteOption) : bool :=
  let searchText := searchTextOf filterBy o in
  match algorithm config with
  | Exact =>
      if caseSensitive config then includes searchText searchQuery
      else includes (toLowerCase searchText) (toLowerCase searchQuery)
  | Fuzzy => fuzzyMatch searchQuery searchText (fuzzyThreshold config)
  | Semantic =>
      includes (toLowerCase searchText) (toLowerCase searchQuery)
      || existsb (fun word => includes (toLowerCase searchText) word)
           (split_char " "%char (toLowerCase searchQuery))
  | Hybrid =>
      includes (toLowerCase searchText) (toLowerCase searchQuery)
      || fuzzyMatch searchQuery searchText (fuzzyThreshold config)
  end.

(** What a call of [filterOptions] leaves behind: the array it returns and
    the array it was given, which [sort] may have reordered in place. *)
Record FilterOutcome := mkOutcome {
  returned : list AutocompleteOption;
  argumentAfter : list AutocompleteOption
}.

Section FilterOptions.

(** The hook's dependencies. *)
Variable config : SearchConfig.
Variable filterBy : list Field.
Variables showRecent showTrending : bool.

(** Lines 130-137, the branch taken when there is no usable query. *)
Definition fallbackBranch (availableOptions : list AutocompleteOption) : FilterOutcome :=
  let recentL :=
    if showRecent
    then slice0 (filter (fun opt => truthy (recent opt)) availableOptions) 3
    else [] in
  let trendingL :=
    if showTrending
    then slice0 (filter (fun opt => truthy (trending opt)) availableOptions) 3
    else [] in
  let sorted := sort popularityCmp availableOptions in
  let popular := slice0 sorted 4 in
  {| returned := slice0 (dedupById (recentL ++ trendingL ++ popular)) (maxResults config);
     argumentAfter := sorted |}.

(** [filterOptions], with the predicate of lines 140-161 as a parameter
    so that one can tell when it is consulted. *)
Definition filterOptionsWith
    (matcher : SearchConfig -> list Field -> str -> AutocompleteOption -> bool)
    (searchQuery : str) (availableOptions : list AutocompleteOption) : FilterOutcome :=
  if (match searchQuery with [] => true | _ => false end)
     || (Z.of_nat (length searchQuery) <? minQueryLength config)
  then fallbackBranch availableOptions
  else
    let filtered := filter (matcher config filterBy searchQuery) availableOptions in
    {| returned := slice0 (rank searchQuery filtered) (maxResults config);
       argumentAfter := availableOptions |}.

Definition filterOptions := filterOptionsWith matchOption.

End FilterOptions.

(** *** The options of the scenarios of the specification *)

Definition plain (i l : String.string) (p : option Z) (r t : option bool) : AutocompleteOption :=
  {| id := lit i; label := lit l; value := []; category := None; description := None;
     image := None; popularity := p; recent := r; trending := t |}.

Definition macbookPro := plain "1" "MacBook Pro" (Some 90) None None.
Definition macbookAir := plain "2" "MacBook Air" (Some 70) None None.

Definition recentItem := plain "r" "Recently used" None (Some true) None.
Definition pop10 := plain "a" "Ten" (Some 10) None None.
Definition pop20 := plain "b" "Twenty" (Some 20) None None.
Definition pop30 := plain "c" "Thirty" (Some 30) None None.


(** ** The component ([AdvancedAutocomplete], lines 88-236) *)

(** [searchConfig]: a partial configuration. *)
Record PartialConfig := mkPartial {
  p_algorithm : option Algorithm;
  p_fuzzyThreshold : option Q;
  p_minQueryLength : option Z;
  p_maxResults : option Z;
  p_debounceMs : option nat;
  p_caseSensitive : option bool;
  p_accentSensitive : option bool
}.

Definition emptyPartial : PartialConfig := mkPartial None None None None None None None.

Definition orDefault {A} (x : option A) (d : A) : A :=
  match x with Some v => v | None => d end.

(** Line 119: [{ ...DEFAULT_SEARCH_CONFIG, ...searchConfig }]. *)
Definition mergeConfig (c : PartialConfig) : SearchConfig :=
  {| algorithm := orDefault (p_algorithm c) (algorithm DEFAULT_SEARCH_CONFIG);
     fuzzyThreshold := orDefault (p_fuzzyThreshold c) (fuzzyThreshold DEFAULT_SEARCH_CONFIG);
     minQueryLength := orDefault (p_minQueryLength c) (minQueryLength DEFAULT_SEARCH_CONFIG);
     maxResults := orDefault (p_maxResults c) (maxResults DEFAULT_SEARCH_CONFIG);
     debounceMs := orDefault (p_debounceMs c) (debounceMs DEFAULT_SEARCH_CONFIG);
     caseSensitive := orDefault (p_caseSensitive c) (caseSensitive DEFAULT_SEARCH_CONFIG);
     accentSensitive := orDefault (p_accentSensitive c) (accentSensitive DEFAULT_SEARCH_CONFIG) |}.

(** The [value] prop. *)
Inductive Selection :=
| NoValue
| Single (o : AutocompleteOption)
| Many (l : list AutocompleteOption).

(** The props that the handlers read. The [options] array itself lives in
    the state below, because sorting changes it; [onSearch] and [onChange]
    are external, only their presence is a prop. *)
Record Props := mkProps {
  selection : Selection;
  hasOnChange : bool;
  hasOnSearch : bool;
  multiple : bool;
  searchConfig : PartialConfig;
  filterByP : list Field;
  showRecentP : bool;
  showTrendingP : bool
}.

Definition configOf (p : Props) : SearchConfig := mergeConfig (searchConfig p).

(** Lines 122-125. *)
Definition selectedValues (p : Props) : list AutocompleteOption :=
  match selection p with
  | NoValue => []
  | Many l => l
  | Single o => [o]
  end.

(** Calls that leave the component, in the order they are made; the entry
    [RanSearch] records that [performSearch] was entered. *)
Inductive Effect :=
| RanSearch (searchQuery : str)
| CalledOnSearch (searchQuery : str)
| CalledOnChange (newSelection : Selection)
| ConsoleError.

(** A timer armed by [setTimeout(() => performSearch(q), ms)]. *)
Record Timer := mkTimer {
  timerId : nat;
  deadline : nat;
  timerQuery : str
}.

(** The hooks' state ([query] to [debounceRef]) and what surrounds the
    component: the [options] array, the armed timers, the clock in ms, the
    queries whose [onSearch] promise is not settled yet, and the calls made
    so far. *)
Record State := mkState {
  query : str;
  isOpen : bool;
  highlightedIndex : Z;
  filteredOptions : list AutocompleteOption;
  recentSearches : list AutocompleteOption;
  isLoading : bool;
  debounceRef : option nat;
  optionsArr : list AutocompleteOption;
  timers : list Timer;
  nextTimer : nat;
  clock : nat;
  pending : list str;
  trace : list Effect
}.

Definition set_query (v : str) (s : State) : State :=
  mkState v (isOpen s) (highlightedIndex s) (filteredOptions s) (recentSearches s) (isLoading s) (debounceRef s) (optionsArr s) (timers s) (nextTimer s) (clock s) (pending s) (trace s).

Definition set_isOpen (v : bool) (s : State) : State :=
  mkState (query s) v (highlightedIndex s) (filteredOptions s) (recentSearches s) (isLoading s) (debounceRef s) (optionsArr s) (timers s) (nextTimer s) (clock s) (pending s) (trace s).

Definition set_highlightedIndex (v : Z) (s : State) : State :=
  mkState (query s) (isOpen s) v (filteredOptions s) (recentSearches s) (isLoading s) (debounceRef s) (optionsArr s) (timers s) (nextTimer s) (clock s) (pending s) (trace s).

Definition set_filteredOptions (v : list AutocompleteOption) (s : State) : State :=
  mkState (query s) (isOpen s) (highlightedIndex s) v (recentSearches s) (isLoading s) (debounceRef s) (optionsArr s) (timers s) (nextTimer s) (clock s) (pending s) (trace s).

Definition set_recentSearches (v : list AutocompleteOption) (s : State) : State :=
  mkState (query s) (isOpen s) (highlightedIndex s) (filteredOptions s) v (isLoading s) (debounceRef s) (optionsArr s) (timers s) (nextTimer s) (clock s) (pending s) (trace s).

Definition set_isLoading (v : bool) (s : State) : State :=
  mkState (query s) (isOpen s) (highlightedIndex s) (filteredOptions s) (recentSearches s) v (debounceRef s) (optionsArr s) (timers s) (nextTimer s) (clock s) (pending s) (trace s).

Definition set_debounceRef (v : option nat) (s : State) : State :=
  mkState (query s) (isOpen s) (highlightedIndex s) (filteredOptions s) (recentSearches s) (isLoading s) v (optionsArr s) (timers s) (nextTimer s) (clock s) (pending s) (trace s).

Definition set_optionsArr (v : list AutocompleteOption) (s : State) : State :=
  mkState (query s) (isOpen s) (highlightedIndex s) (filteredOptions s) (recentSearches s) (isLoading s) (debounceRef s) v (timers s) (nextTimer s) (clock s) (pending s) (trace s).

Definition set_timers (v : list Timer) (s : State) : State :=
  mkState (query s) (isOpen s) (highlightedIndex s) (filteredOptions s) (recentSearches s) (isLoading s) (debounceRef s) (optionsArr s) v (nextTimer s) (clock s) (pending s) (trace s).

Definition set_nextTimer (v : nat) (s : State) : State :=
  mkState (query s) (isOpen s) (highlightedIndex s) (filteredOptions s) (recentSearches s) (isLoading s) (debounceRef s) (optionsArr s) (timers s) v (clock s) (pending s) (trace s).

Definition set_clock (v : nat) (s : State) : State :=
  mkState (query s) (isOpen s) (highlightedIndex s) (filteredOptions s) (recentSearches s) (isLoading s) (debounceRef s) (optionsArr s) (timers s) (nextTimer s) v (pending s) (trace s).

Definition set_pending (v : list str) (s : State) : State :=
  mkState (query s) (isOpen s) (highlightedIndex s) (filteredOptions s) (recentSearches s) (isLoading s) (debounceRef s) (optionsArr s) (timers s) (nextTimer s) (clock s) v (trace s).

Definition set_trace (v : list Effect) (s : State) : State :=
  mkState (query s) (isOpen s) (highlightedIndex s) (filteredOptions s) (recentSearches s) (isLoading s) (debounceRef s) (optionsArr s) (timers s) (nextTimer s) (clock s) (pending s) v.

Definition initialState (opts : list AutocompleteOption) : State :=
  {| query := []; isOpen := false; highlightedIndex := -1; filteredOptions := [];
     recentSearches := []; isLoading := false; debounceRef := None;
     optionsArr := opts; timers := []; nextTimer := 1%nat; clock := 0%nat;
     pending := []; trace := [] |}.

Definition emit (e : Effect) (s : State) : State := set_trace (trace s ++ [e]) s.

Definition filterOptionsOf (p : Props) : str -> list AutocompleteOption -> FilterOutcome :=
  filterOptions (configOf p) (filterByP p) (showRecentP p) (showTrendingP p).

(** [performSearch] up to its [await] (lines 178-182 and 190-192). *)
Definition performSearch (p : Props) (searchQuery : str) (s : State) : State :=
  let s := emit (RanSearch searchQuery) s in
  if hasOnSearch p && (minQueryLength (configOf p) <=? Z.of_nat (length searchQuery))
  then
    let s := set_isLoading true s in
    let s := emit (CalledOnSearch searchQuery) s in
    set_pending (pending s ++ [searchQuery]) s
  else
    let out := filterOptionsOf p searchQuery (optionsArr s) in
    set_filteredOptions (returned out) (set_optionsArr (argumentAfter out) s).

(** Removing the first occurrence of a settled query from the pending ones. *)
Fixpoint settle (q : str) (l : list str) : list str :=
  match l with
  | [] => []
  | x :: l' => if str_eqb x q then l' else x :: settle q l'
  end.

Definition isPending (q : str) (s : State) : bool :=
  existsb (fun x => str_eqb x q) (pending s).

(** The rest of [performSearch] when [onSearch(searchQuery)] fulfils with
    [results] (lines 183 and 188). *)
Definition searchResolved (p : Props) (searchQuery : str)
    (results : list AutocompleteOption) (s : State) : State :=
  let out := filterOptionsOf p searchQuery results in
  let s := set_filteredOptions (returned out) s in
  let s := set_isLoading false s in
  set_pending (settle searchQuery (pending s)) s.

(** The rest of [performSearch] when the promise rejects (lines 184-188). *)
Definition searchRejected (p : Props) (searchQuery : str) (s : State) : State :=
  let s := emit ConsoleError s in
  let s := set_filteredOptions [] s in
  let s := set_isLoading false s in
  set_pending (settle searchQuery (pending s)) s.

(** [clearTimeout(id)]: disarming a timer that fired already does nothing. *)
Definition clearTimeout (tid : nat) (s : State) : State :=
  set_timers (filter (fun t => negb (timerId t =? tid)%nat) (timers s)) s.

(** [setTimeout(() => performSearch(q), ms)], returning the new id. *)
Definition setTimeout (q : str) (ms : nat) (s : State) : nat * State :=
  let tid := nextTimer s in
  let s := set_timers (timers s ++ [mkTimer tid (clock s + ms) q]) s in
  (tid, set_nextTimer (S tid) s).

(** [handleInputChange] (lines 196-208). *)
Definition handleInputChange (p : Props) (newQuery : str) (s : State) : State :=
  let s := set_query newQuery s in
  let s := set_highlightedIndex (-1) s in
  let s := match debounceRef s with
           | Some tid => clearTimeout tid s
           | None => s
           end in
  let '(tid, s) := setTimeout newQuery (debounceMs (configOf p)) s in
  set_debounceRef (Some tid) s.

(** [handleRemoveTag] (lines 231-236). *)
Definition handleRemoveTag (p : Props) (optionId : str) (s : State) : State :=
  if multiple p then
    let newSelection := filter (fun v => negb (str_eqb (id v) optionId)) (selectedValues p) in
    if hasOnChange p then emit (CalledOnChange (Many newSelection)) s else s
  else s.

(** Lines 409-415: the tags are rendered in multi mode when something is
    selected, one per selected option, and each is handed the remover
    [() => handleRemoveTag(option.id)]; nothing else calls [handleRemoveTag].
    These are the ids it can be called with. *)
Definition tagRemovals (p : Props) : list str :=
  if multiple p && (0 <? Z.of_nat (length (selectedValues p)))
  then map (fun option => id option) (selectedValues p)
  else [].

(** The event loop lets [ms] milliseconds pass: the timers that are due
    fire in the order of their deadlines, each running its callback. *)
Definition elapse (p : Props) (ms : nat) (s : State) : State :=
  let now := (clock s + ms)%nat in
  let due := filter (fun t => (deadline t <=? now)%nat) (timers s) in
  let later := filter (fun t => negb (deadline t <=? now)%nat) (timers s) in
  let s := set_clock now (set_timers later s) in
  fold_left (fun s t => performSearch p (timerQuery t) s)
    (sort (fun a b => Z.of_nat (deadline a) - Z.of_nat (deadline b)) due) s.

(** What can happen to a mounted component. A promise can only settle
    when its query is pending. *)
Inductive Event :=
| Mounted
| InputChanged (newQuery : str)
| Elapsed (ms : nat)
| Fulfilled (searchQuery : str) (results : list AutocompleteOption)
| Failed (searchQuery : str)
| TagRemoved (optionId : str).

Definition step (p : Props) (s : State) (e : Event) : State :=
  match e with
  | Mounted => performSearch p [] s
  | InputChanged q => handleInputChange p q s
  | Elapsed ms => elapse p ms s
  | Fulfilled q results => if isPending q s then searchResolved p q results s else s
  | Failed q => if isPending q s then searchRejected p q s else s
  | TagRemoved optionId => handleRemoveTag p optionId s
  end.

Definition run (p : Props) (s : State) (events : list Event) : State :=
  fold_left (step p) events s.

(** The searches run and the fetches asked for, read off the trace. *)
Definition searchesRun (s : State) : list str :=
  flat_map (fun e => match e with RanSearch q => [q] | _ => [] end) (trace s).

Definition fetchesAsked (s : State) : list str :=
  flat_map (fun e => match e with CalledOnSearch q => [q] | _ => [] end) (trace s).

Definition changesReported (s : State) : list Selection :=
  flat_map (fun e => match e with CalledOnChange v => [v] | _ => [] end) (trace s).

(** ** Notions used to state the properties *)

(** For a comparator [cmp], [x] may stand before [y]. *)
Definition inOrder {A} (cmp : A -> A -> Z) (x y : A) : Prop := cmp x y <= 0.

(** What the comparator of the ranker looks at: whether the label starts
    with the query, and the popularity (0 when absent). *)
Definition rankKey (searchQuery : str) (o : AutocompleteOption) : bool * Z :=
  (startsWith (toLowerCase (label o)) (toLowerCase searchQuery), popularityOr0 o).

Definition hasRankKey (searchQuery : str) (k : bool * Z) (o : AutocompleteOption) : bool :=
  Bool.eqb (fst (rankKey searchQuery o)) (fst k) && (snd (rankKey searchQuery o) =? snd k).

(** Deduplication by id that keeps the first occurrence, as the
    specification words it: an option is kept unless its id was seen. *)
Fixpoint keepFirstById (seen : list str) (l : list AutocompleteOption) :
    list AutocompleteOption :=
  match l with
  | [] => []
  | o :: l' =>
      if existsb (fun i => str_eqb i (id o)) seen then keepFirstById seen l'
      else o :: keepFirstById (id o :: seen) l'
  end.

(** "All candidates sorted descending by popularity (stable)", said
    without any sorting procedure: [sorted] holds the candidates, no option
    stands before a more popular one, and the options of one popularity
    stand in the order they have in [candidates]. *)
Definition sortedByPopularity (candidates sorted : list AutocompleteOption) : Prop :=
  Permutation candidates sorted
  /\ StronglySorted (fun a b => popularityOr0 b <= popularityOr0 a) sorted
  /\ forall n : Z,
       filter (fun c => popularityOr0 c =? n) sorted
       = filter (fun c => popularityOr0 c =? n) candidates.

(** The fallback selection as section 4.5 of the specification words it,
    for the candidates in the order [byPopularity]. *)
Definition specFallback (config : SearchConfig) (showRecent showTrending : bool)
    (candidates byPopularity : list AutocompleteOption) : list AutocompleteOption :=
  let recentSlice :=
    if showRecent then firstn 3 (filter (fun c => truthy (recent c)) candidates) else [] in
  let trendingSlice :=
    if showTrending then firstn 3 (filter (fun c => truthy (trending c)) candidates) else [] in
  let popularSlice := firstn 4 byPopularity in
  firstn (Z.to_nat (maxResults config))
    (keepFirstById [] (recentSlice ++ trendingSlice ++ popularSlice)).

(** The threshold brought back into [0,1]. *)
Definition clamp01 (t : Q) : Q :=
  if Qle_bool t 0 then 0 else if Qle_bool 1 t then 1 else t.

Definition withThreshold (t : Q) (c : SearchConfig) : SearchConfig :=
  {| algorithm := algorithm c; fuzzyThreshold := t; minQueryLength := minQueryLength c;
     maxResults := maxResults c; debounceMs := debounceMs c;
     caseSensitive := caseSensitive c; accentSensitive := accentSensitive c |}.

Definition withMax (m : Z) (c : SearchConfig) : SearchConfig :=
  {| algorithm := algorithm c; fuzzyThreshold := fuzzyThreshold c;
     minQueryLength := minQueryLength c; maxResults := m; debounceMs := debounceMs c;
     caseSensitive := caseSensitive c; accentSensitive := accentSensitive c |}.

(** What the proofs need of a cell of the matrix: the cell for the
    prefixes [x] of [a] and [y] of [b] is at most the longer length, and it
    is 0 only when the prefixes are equal. *)
Definition cellOk (x y : str) (v : nat) : Prop :=
  (v <= Nat.max (length x) (length y))%nat /\ (v = 0%nat -> x = y).

(** The cells of a row, from the column after the prefix [ap] on. *)
Fixpoint cellsOk (ap ar y : str) (cells : list nat) : Prop :=
  match ar, cells with
  | [], [] => True
  | c :: ar', v :: cells' => cellOk (ap ++ [c]) y v /\ cellsOk (ap ++ [c]) ar' y cells'
  | _, _ => False
  end.

Definition rowOk (a y : str) (row : list nat) : Prop :=
  match row with
  | [] => False
  | d0 :: cells => cellOk [] y d0 /\ cellsOk [] a y cells
  end.

(** A [maxResults] that cuts nothing off: the list before the final
    [slice] is never longer than this. *)
Definition unlimited (l : list AutocompleteOption) : Z := Z.of_nat (length l) + 10.

(** Every armed timer is the one that [debounceRef] holds. *)
Definition timersOwned (s : State) : Prop :=
  forall t, In t (timers s) -> debounceRef s = Some (timerId t).

(** Every fetch asked for so far had a query of the minimum length. *)
Definition fetchesLongEnough (p : Props) (s : State) : Prop :=
  Forall (fun q => minQueryLength (configOf p) <= Z.of_nat (length q)) (fetchesAsked s).

(** A burst of query changes: a first change, then changes that each come
    [gap] milliseconds after the one before. *)
Definition burst (first : str) (rest : list (nat * str)) : list Event :=
  InputChanged first
  :: flat_map (fun gq => [Elapsed (fst gq); InputChanged (snd gq)]) rest.

Definition lastQuery (first : str) (rest : list (nat * str)) : str :=
  last (map snd rest) first.

(** *** Props and options used in the examples *)

(** A single-select widget with an [onSearch]. *)
Definition fetchingProps : Props :=
  {| selection := NoValue; hasOnChange := true; hasOnSearch := true; multiple := false;
     searchConfig := emptyPartial; filterByP := defaultFilterBy;
     showRecentP := true; showTrendingP := true |}.

(** A multi-select widget whose selection holds "MacBook Pro". *)
Definition multiProps : Props :=
  {| selection := Many [macbookPro]; hasOnChange := true; hasOnSearch := false;
     multiple := true; searchConfig := emptyPartial; filterByP := defaultFilterBy;
     showRecentP := true; showTrendingP := true |}.

Definition iphone := plain "1" "iPhone 15 Pro" (Some 95) None None.
Definition ipad := plain "4" "iPad Air" (Some 85) None None.

Definition withMaxResults (m : Z) : PartialConfig :=
  mkPartial None None None (Some m) None None None.

(** ** Further notions used to state properties *)

(** The edit distance by its recurrence on the first characters: deleting,
    inserting or substituting one character costs 1. *)
Fixpoint editDistance (a b : str) {struct a} : nat :=
  match a with
  | [] => length b
  | c :: a' =>
      let fix against (b : str) : nat :=
        match b with
        | [] => S (length a')
        | d :: b' =>
            Nat.min (Nat.min (editDistance a' (d :: b') + 1) (against b' + 1))
                    (editDistance a' b' + (if ascii_eqb c d then 0 else 1))
        end in
      against b
  end.

(** The cell of the matrix for the prefixes [x] of [a] and [y] of [b] holds
    the edit distance of the prefixes, read from their last characters. *)
Definition cellIs (x y : str) (v : nat) : Prop := v = editDistance (rev x) (rev y).

Fixpoint cellsAre (ap ar y : str) (cells : list nat) : Prop :=
  match ar, cells with
  | [], [] => True
  | c :: ar', v :: cells' => cellIs (ap ++ [c]) y v /\ cellsAre (ap ++ [c]) ar' y cells'
  | _, _ => False
  end.

Definition rowIs (a y : str) (row : list nat) : Prop :=
  match row with
  | [] => False
  | d0 :: cells => cellIs [] y d0 /\ cellsAre [] a y cells
  end.

Definition withAlgorithm (a : Algorithm) (c : SearchConfig) : SearchConfig :=
  {| algorithm := a; fuzzyThreshold := fuzzyThreshold c;
     minQueryLength := minQueryLength c; maxResults := maxResults c;
     debounceMs := debounceMs c; caseSensitive := caseSensitive c;
     accentSensitive := accentSensitive c |}.

(** [a] may be shown above [b] for the query: [a]'s label starts with the
    query and [b]'s does not, or both do or both do not and [b] is not the
    more popular. *)
Definition labelStartsWith (searchQuery : str) (o : AutocompleteOption) : bool :=
  startsWith (toLowerCase (label o)) (toLowerCase searchQuery).

Definition shownAbove (searchQuery : str) (a b : AutocompleteOption) : Prop :=
  (labelStartsWith searchQuery a = true /\ labelStartsWith searchQuery b = false)
  \/ (labelStartsWith searchQuery a = labelStartsWith searchQuery b
      /\ popularityOr0 b <= popularityOr0 a).

(** Line 436: the index under which a rendered row looks itself up. *)
Definition globalIndex (filteredOptions : list AutocompleteOption)
    (o : AutocompleteOption) : Z :=
  findIndex (fun o' => str_eqb (id o') (id o)) filteredOptions.

(** ** Selection and keyboard ([handleSelect], lines 211-228;
    [handleKeyDown], lines 239-276) *)

(** [{ ...option, recent: true }]. *)
Definition markRecent (o : AutocompleteOption) : AutocompleteOption :=
  {| id := id o; label := label o; value := value o; category := category o;
     description := description o; image := image o; popularity := popularity o;
     recent := Some true; trending := trending o |}.

(** [handleSelect]. *)
Definition handleSelect (p : Props) (option : AutocompleteOption) (s : State) : State :=
  let s :=
    if multiple p then
      let newSelection :=
        if existsb (fun v => str_eqb (id v) (id option)) (selectedValues p)
        then filter (fun v => negb (str_eqb (id v) (id option))) (selectedValues p)
        else selectedValues p ++ [option] in
      if hasOnChange p then emit (CalledOnChange (Many newSelection)) s else s
    else
      let s := if hasOnChange p then emit (CalledOnChange (Single option)) s else s in
      let s := set_query (label option) s in
      set_isOpen false s in
  set_recentSearches
    (slice0 (markRecent option
             :: filter (fun r => negb (str_eqb (id r) (id option))) (recentSearches s)) 5)
    s.

(** The keys that [handleKeyDown] tells apart. *)
Inductive Key := ArrowDown | ArrowUp | Enter | Escape | Tab | OtherKey.

(** [filteredOptions[i]] for an integer [i]: [undefined] out of range. *)
Definition optionAt (l : list AutocompleteOption) (i : Z) : option AutocompleteOption :=
  if i <? 0 then None else nth_error l (Z.to_nat i).

(** [handleKeyDown]; what it does to the DOM ([preventDefault], [blur]) is
    left out. *)
Definition handleKeyDown (p : Props) (key : Key) (s : State) : State :=
  let len := Z.of_nat (length (filteredOptions s)) in
  if negb (isOpen s) then
    match key with
    | ArrowDown | Enter => set_isOpen true s
    | _ => s
    end
  else
    match key with
    | ArrowDown =>
        let prev := highlightedIndex s in
        set_highlightedIndex (if prev <? len - 1 then prev + 1 else 0) s
    | ArrowUp =>
        let prev := highlightedIndex s in
        set_highlightedIndex (if 0 <? prev then prev - 1 else len - 1) s
    | Enter =>
        if 0 <=? highlightedIndex s then
          match optionAt (filteredOptions s) (highlightedIndex s) with
          | Some o => handleSelect p o s
          | None => s
          end
        else s
    | Escape => set_highlightedIndex (-1) (set_isOpen false s)
    | Tab => set_isOpen false s
    | OtherKey => s
    end.

(** The props after the parent stored a reported selection in [value]. *)
Definition withSelection (v : Selection) (p : Props) : Props :=
  {| selection := v; hasOnChange := hasOnChange p; hasOnSearch := hasOnSearch p;
     multiple := multiple p; searchConfig := searchConfig p; filterByP := filterByP p;
     showRecentP := showRecentP p; showTrendingP := showTrendingP p |}.

Definition hasId (i : str) (l : list AutocompleteOption) : bool :=
  existsb (fun v => str_eqb (id v) i) l.

(** The highlighted index points at a row of the list. *)
Definition highlightInRange (s : State) : Prop :=
  0 <= highlightedIndex s < Z.of_nat (length (filteredOptions s)).

Definition openState (filtered : list AutocompleteOption) (i : Z) : State :=
  set_highlightedIndex i (set_filteredOptions filtered (set_isOpen true (initialState []))).

(** A series of query changes, each followed by a pause. *)
Definition spacedChanges (changes : list (str * nat)) : list Event :=
  flat_map (fun qg => [InputChanged (fst qg); Elapsed (snd qg)]) changes.

(** ** Grouping ([groupedOptions], lines 296-310) *)

Record Group := mkGroup {
  groupCategory : str;
  groupOptions : list AutocompleteOption
}.

(** The accumulator of the [reduce]: the own properties of the object, in
    the order they were created. *)
Definition Groups := list (str * list AutocompleteOption).

(** The properties that the object literal [{}] inherits from
    [Object.prototype]. Reading one of them from the accumulator gives a
    function (or the prototype itself, for [__proto__]), never [undefined]. *)
Definition objectPrototypeKeys : list str :=
  [lit "constructor"; lit "hasOwnProperty"; lit "isPrototypeOf";
   lit "propertyIsEnumerable"; lit "toLocaleString"; lit "toString"; lit "valueOf";
   lit "__proto__"; lit "__defineGetter__"; lit "__defineSetter__";
   lit "__lookupGetter__"; lit "__lookupSetter__"].

Definition inheritedKey (k : str) : bool := existsb (str_eqb k) objectPrototypeKeys.

Fixpoint ownProperty (k : str) (acc : Groups) : option (list AutocompleteOption) :=
  match acc with
  | [] => None
  | (k', v) :: acc' => if str_eqb k' k then Some v else ownProperty k acc'
  end.

(** [acc[k].push(o)] for an own property [k]. *)
Fixpoint pushTo (k : str) (o : AutocompleteOption) (acc : Groups) : Groups :=
  match acc with
  | [] => []
  | (k', v) :: acc' =>
      if str_eqb k' k then (k', v ++ [o]) :: acc' else (k', v) :: pushTo k o acc'
  end.

(** [groupBy(option) || 'Other']. *)
Definition categoryOf (groupBy : AutocompleteOption -> option str)
    (o : AutocompleteOption) : str :=
  match groupBy o with
  | Some (c :: s) => c :: s
  | _ => lit "Other"
  end.

(** The callback of the [reduce]. [None] is the [TypeError] of calling
    [push] on an inherited property, which has no such method. *)
Definition groupReducer (groupBy : AutocompleteOption -> option str)
    (acc : Groups) (o : AutocompleteOption) : option Groups :=
  let category := categoryOf groupBy o in
  match ownProperty category acc with
  | Some _ => Some (pushTo category o acc)
  | None =>
      if inheritedKey category then None
      else Some (acc ++ [(category, [o])])
  end.

Fixpoint reduceGroups (groupBy : AutocompleteOption -> option str)
    (acc : Groups) (l : list AutocompleteOption) : option Groups :=
  match l with
  | [] => Some acc
  | o :: l' =>
      match groupReducer groupBy acc o with
      | Some acc' => reduceGroups groupBy acc' l'
      | None => None
      end
  end.

(** The value of a string of decimal digits. *)
Fixpoint digitsValue (acc : N) (s : str) : option N :=
  match s with
  | [] => Some acc
  | c :: s' =>
      let n := N_of_ascii c in
      if ((48 <=? n) && (n <=? 57))%N then digitsValue (acc * 10 + (n - 48))%N s'
      else None
  end.

(** A property key that is an array index: the canonical decimal form of
    an integer from 0 to 2^32 - 2. *)
Definition arrayIndex (k : str) : option N :=
  match k with
  | [] => None
  | c :: rest =>
      if ascii_eqb c "0"%char && negb (match rest with [] => true | _ => false end)
      then None
      else match digitsValue 0 k with
           | Some n => if (n <=? 4294967294)%N then Some n else None
           | None => None
           end
  end.

Definition isArrayIndex (k : str) : bool :=
  match arrayIndex k with Some _ => true | None => false end.

Definition indexOr0 (k : str) : Z :=
  match arrayIndex k with Some n => Z.of_N n | None => 0 end.

(** The order in which [Object.entries] lists own properties: the array
    indices in ascending order, then the other keys as created. *)
Definition entriesOrder {V} (acc : list (str * V)) : list (str * V) :=
  sort (fun a b => indexOr0 (fst a) - indexOr0 (fst b))
       (filter (fun e => isArrayIndex (fst e)) acc)
  ++ filter (fun e => negb (isArrayIndex (fst e))) acc.

(** [groupedOptions]; [None] when the render throws. *)
Definition groupedOptions (groupBy : option (AutocompleteOption -> option str))
    (filteredOptions : list AutocompleteOption) : option (list Group) :=
  match groupBy with
  | None => Some [mkGroup [] filteredOptions]
  | Some g =>
      match reduceGroups g [] filteredOptions with
      | Some groups =>
          Some (map (fun e => mkGroup (fst e) (snd e)) (entriesOrder groups))
      | None => None
      end
  end.

(** The categories of a list, each once, in the order of first occurrence. *)
Fixpoint firstOccurrences (seen : list str) (l : list str) : list str :=
  match l with
  | [] => []
  | k :: l' =>
      if existsb (fun j => str_eqb j k) seen then firstOccurrences seen l'
      else k :: firstOccurrences (k :: seen) l'
  end.

Definition categoriesOf (groupBy : AutocompleteOption -> option str)
    (l : list AutocompleteOption) : list str :=
  firstOccurrences [] (map (categoryOf groupBy) l).

Definition inCategory (groupBy : AutocompleteOption -> option str) (k : str)
    (o : AutocompleteOption) : bool :=
  str_eqb (categoryOf groupBy o) k.

(** The accumulator that grouping [l] builds. *)
Definition groupsOf (groupBy : AutocompleteOption -> option str)
    (l : list AutocompleteOption) : Groups :=
  map (fun k => (k, filter (inCategory groupBy k) l)) (categoriesOf groupBy l).

Definition byCategory (o : AutocompleteOption) : option str := category o.

Definition tablet := 
  {| id := lit "4"; label := lit "iPad Air"; value := lit "ipad-air";
     category := Some (lit "Tablets"); description := None; image := None;
     popularity := Some 85; recent := Some true; trending := None |}.

Definition phone :=
  {| id := lit "1"; label := lit "iPhone 15 Pro"; value := lit "iphone-15-pro";
     category := Some (lit "Smartphones"); description := None; image := None;
     popularity := Some 95; recent := None; trending := Some true |}.

(** ** Highlighting ([highlightMatch], lines 70-85) *)

(** The elements that [highlightMatch] returns. *)
Inductive Node :=
| Mark (part : str)
| Span (part : str).

Inductive Highlighted :=
| PlainText (text : str)
| Parts (nodes : list Node).

(** The regular expression is the query, every special character
    escaped, in a group, with the flags [g] and [i]: it matches at the
    start of [s] when [s] starts with the query, letter case apart. *)
Definition matchesAt (query s : str) : bool :=
  startsWith (toLowerCase s) (toLowerCase query).

(** [text.split(regex)] for this expression and a query that is not
    empty: the matches are looked for from left to right, each match closes
    the piece before it and is itself added to the pieces (the group
    captures it), and the search goes on behind the match. [cur] is the
    open piece, last character first; [skip] counts the characters of the
    last match still to be passed. *)
Fixpoint splitByMatches (query : str) (skip : nat) (cur : str) (s : str) : list str :=
  match s with
  | [] => [rev cur]
  | c :: s' =>
      match skip with
      | S k => splitByMatches query k cur s'
      | O =>
          if matchesAt query s
          then rev cur :: firstn (length query) s
                 :: splitByMatches query (length query - 1) [] s'
          else splitByMatches query 0 (c :: cur) s'
      end
  end.

(** The offset of the first match in [s]. *)
Fixpoint findMatch (query : str) (s : str) : option nat :=
  if matchesAt query s then Some 0%nat
  else match s with
       | [] => None
       | _ :: s' => option_map S (findMatch query s')
       end.

(** [regex.test(part)] for the expression with the flag [g]: the search
    starts at [lastIndex]; a hit leaves [lastIndex] behind the match, a
    miss resets it to 0. The result is the answer and the new [lastIndex]. *)
Definition regexTest (query : str) (lastIndex : nat) (part : str) : bool * nat :=
  if (length part <? lastIndex)%nat then (false, 0%nat)
  else match findMatch query (skipn lastIndex part) with
       | Some k => (true, (lastIndex + k + length query)%nat)
       | None => (false, 0%nat)
       end.

(** The [map] over the pieces, with the [lastIndex] that the calls of
    [test] hand on from piece to piece. *)
Fixpoint renderParts (query : str) (lastIndex : nat) (parts : list str) : list Node :=
  match parts with
  | [] => []
  | part :: rest =>
      let '(hit, lastIndex') := regexTest query lastIndex part in
      (if hit then Mark part else Span part) :: renderParts query lastIndex' rest
  end.

Definition highlightMatch (text query : str) : Highlighted :=
  match query with
  | [] => PlainText text
  | _ :: _ => Parts (renderParts query 0 (splitByMatches query 0 [] text))
  end.

Definition nodeText (n : Node) : str :=
  match n with Mark part => part | Span part => part end.

(** The text that a result of [highlightMatch] shows. *)
Definition shownText (h : Highlighted) : str :=
  match h with
  | PlainText text => text
  | Parts nodes => concat (map nodeText nodes)
  end.

(** A marked part is the query, letter case apart; an unmarked part
    holds no occurrence of the query. *)
Definition nodeRight (query : str) (n : Node) : Prop :=
  match n with
  | Mark part => toLowerCase part = toLowerCase query
  | Span part => includes (toLowerCase part) (toLowerCase query) = false
  end.

(** Pieces as [split] leaves them: pieces without an occurrence of the
    query, with a match between every two of them. *)
Fixpoint piecesAlternate (query : str) (plainNext : bool) (parts : list str) : Prop :=
  match parts with
  | [] => plainNext = false
  | part :: rest =>
      if plainNext
      then includes (toLowerCase part) (toLowerCase query) = false
           /\ piecesAlternate query false rest
      else toLowerCase part = toLowerCase query /\ piecesAlternate query true rest
  end.

(** No match starts inside the open piece. *)
Definition openPieceClean (query cur s : str) : Prop :=
  forall k, (k < length cur)%nat -> matchesAt query (skipn k (rev cur ++ s)) = false.

(** ** The remote source of the demo ([handleAsyncSearch],
    AutocompleteProDemo.tsx lines 73-79)

    What the promise fulfils with, for the sample options it filters. *)
Definition handleAsyncSearch (sampleOptions : list AutocompleteOption) (query : str) :
    list AutocompleteOption :=
  filter
    (fun option =>
       includes (toLowerCase (label option)) (toLowerCase query)
       || match description option with
          | Some d => includes (toLowerCase d) (toLowerCase query)
          | None => false
          end)
    sampleOptions.

(** * Properties *)

(** ** Sanity checks of the embedding on concrete inputs *)

Example lev_kitten : levenshteinDistance (lit "kitten") (lit "sitting") = 3%nat.
Proof. reflexivity. Qed.

Example lev_macbok : levenshteinDistance (lit "macbok") (lit "macbook") = 1%nat.
Proof. reflexivity. Qed.

Example split_ws_ex :
  split_ws (lit " a  b ") = [lit ""; lit "a"; lit "b"; lit ""].
Proof. reflexivity. Qed.

Example split_char_ex :
  split_char " "%char (lit "a  b") = [lit "a"; lit ""; lit "b"].
Proof. reflexivity. Qed.

Example fuzzy_macbok : fuzzyMatch (lit "macbok") (lit "MacBook Pro") (1#2) = true.
Proof. reflexivity. Qed.

Example slice0_negative : slice0 [1; 2; 3; 4] (-1) = [1; 2; 3].
Proof. reflexivity. Qed.

(** The fallback scenario of the specification: one recent option and
    three options of popularity 10, 20 and 30. *)
Example fallback_scenario :
  returned (filterOptions DEFAULT_SEARCH_CONFIG defaultFilterBy true true []
              [pop10; recentItem; pop20; pop30])
  = [recentItem; pop30; pop20; pop10].
Proof. reflexivity. Qed.

(** ** Strings and lists *)

Lemma ascii_eqb_eq (a b : ascii) : ascii_eqb a b = true <-> a = b.
Proof. unfold ascii_eqb. apply Ascii.eqb_eq. Qed.

Lemma str_eqb_eq (a b : str) : str_eqb a b = true <-> a = b.
Proof.
  revert b. induction a as [|x a IH]; intros [|y b]; simpl; split; intro H;
    try reflexivity; try discriminate.
  - apply andb_true_iff in H. destruct H as [Hxy Hab].
    apply ascii_eqb_eq in Hxy. apply IH in Hab. now subst.
  - injection H as -> ->. apply andb_true_iff. split.
    + now apply ascii_eqb_eq.
    + now apply IH.
Qed.

Lemma str_eqb_refl (a : str) : str_eqb a a = true.
Proof. now apply str_eqb_eq. Qed.

Lemma str_eqb_sym (a b : str) : str_eqb a b = str_eqb b a.
Proof.
  destruct (str_eqb a b) eqn:E.
  - apply str_eqb_eq in E. subst. symmetry. apply str_eqb_refl.
  - destruct (str_eqb b a) eqn:E'; [|reflexivity].
    apply str_eqb_eq in E'. subst. now rewrite str_eqb_refl in E.
Qed.

Lemma slice0_nonneg {A} (l : list A) (e : Z) :
  0 <= e -> slice0 l e = firstn (Z.to_nat e) l.
Proof.
  intro He. unfold slice0.
  destruct (e <? 0) eqn:E; [lia|].
  destruct (Z.le_gt_cases e (Z.of_nat (length l))) as [Hle|Hgt].
  - now rewrite Z.min_l.
  - rewrite Z.min_r by lia. rewrite Nat2Z.id.
    rewrite firstn_all. symmetry. apply firstn_all2. lia.
Qed.

Lemma slice0_zero {A} (l : list A) : slice0 l 0 = [].
Proof. now rewrite slice0_nonneg. Qed.

Lemma slice0_negative_drops {A} (l : list A) (k : nat) :
  (0 < k)%nat -> slice0 l (- Z.of_nat k) = firstn (length l - k) l.
Proof.
  intro Hk. unfold slice0.
  destruct (- Z.of_nat k <? 0) eqn:E; [|lia].
  f_equal. lia.
Qed.

Lemma slice0_all {A} (l : list A) (e : Z) :
  Z.of_nat (length l) <= e -> slice0 l e = l.
Proof.
  intro H. rewrite slice0_nonneg by lia. apply firstn_all2. lia.
Qed.

Lemma slice0_length {A} (l : list A) (e : Z) : (length (slice0 l e) <= length l)%nat.
Proof. unfold slice0. rewrite length_firstn. lia. Qed.

(** ** The misspelled query *)

(** C5. With the options "MacBook Pro" (popularity 90) and "MacBook Air"
    (popularity 70), the hybrid algorithm, threshold 0.5 and the query
    "macbok", the search returns both options, "MacBook Pro" first; this
    holds in whichever order the two options are supplied. *)
Theorem hybrid_typo_scenario :
  algorithm DEFAULT_SEARCH_CONFIG = Hybrid /\
  fuzzyThreshold DEFAULT_SEARCH_CONFIG = 1#2 /\
  returned (filterOptions DEFAULT_SEARCH_CONFIG defaultFilterBy true true
              (lit "macbok") [macbookPro; macbookAir]) = [macbookPro; macbookAir] /\
  returned (filterOptions DEFAULT_SEARCH_CONFIG defaultFilterBy true true
              (lit "macbok") [macbookAir; macbookPro]) = [macbookPro; macbookAir].
Proof. repeat split; vm_compute; reflexivity. Qed.

(** Neither label starts with the misspelled query, and neither text
    contains it: the two options match through the fuzzy word test and are
    ordered by the popularity term of the comparator. *)
Lemma hybrid_typo_scenario_why :
  startsWith (toLowerCase (label macbookPro)) (lit "macbok") = false /\
  startsWith (toLowerCase (label macbookAir)) (lit "macbok") = false /\
  includes (toLowerCase (searchTextOf defaultFilterBy macbookPro)) (lit "macbok") = false /\
  word_match (lit "macbok") (lit "macbook") (1#2) = true /\
  rankCmp (lit "macbok") macbookAir macbookPro = 20.
Proof. repeat split; vm_compute; reflexivity. Qed.

(** ** The empty query *)

(** C10. Whatever the configuration (so also with [minQueryLength = 0]),
    filtering with the empty query is the fallback branch, and the matching
    predicate is not consulted: replacing it by any other predicate gives
    the same outcome. *)
Theorem empty_query_takes_fallback
    (config : SearchConfig) (filterBy : list Field) (showRecent showTrending : bool)
    (availableOptions : list AutocompleteOption) :
  filterOptions config filterBy showRecent showTrending [] availableOptions
    = fallbackBranch config showRecent showTrending availableOptions
  /\ forall matcher,
       filterOptionsWith config filterBy showRecent showTrending matcher [] availableOptions
       = filterOptions config filterBy showRecent showTrending [] availableOptions.
Proof. split; [|intro matcher]; reflexivity. Qed.

(** A non-empty query that is long enough does consult the predicate. *)
Lemma long_query_takes_search
    (config : SearchConfig) (filterBy : list Field) (showRecent showTrending : bool)
    matcher (q : str) (availableOptions : list AutocompleteOption) :
  q <> [] -> minQueryLength config <= Z.of_nat (length q) ->
  filterOptionsWith config filterBy showRecent showTrending matcher q availableOptions
  = {| returned := slice0 (rank q (filter (matcher config filterBy q) availableOptions))
                     (maxResults config);
       argumentAfter := availableOptions |}.
Proof.
  intros Hq Hlen. unfold filterOptionsWith.
  destruct q as [|c q]; [contradiction|].
  destruct (Z.of_nat (length (c :: q)) <? minQueryLength config) eqn:E; [lia|reflexivity].
Qed.

Lemma short_query_takes_fallback
    (config : SearchConfig) (filterBy : list Field) (showRecent showTrending : bool)
    matcher (q : str) (availableOptions : list AutocompleteOption) :
  Z.of_nat (length q) < minQueryLength config ->
  filterOptionsWith config filterBy showRecent showTrending matcher q availableOptions
  = fallbackBranch config showRecent showTrending availableOptions.
Proof.
  intro Hlen. unfold filterOptionsWith.
  apply Z.ltb_lt in Hlen. rewrite Hlen. now rewrite orb_true_r.
Qed.

(** ** Queries below the minimum length *)

(** C4. When the query is shorter than [minQueryLength], [performSearch]
    shows the fallback result computed over the local options and asks
    [onSearch] for nothing, whether or not an [onSearch] is supplied. *)
Theorem short_query_never_fetches (p : Props) (searchQuery : str) (s : State) :
  Z.of_nat (length searchQuery) < minQueryLength (configOf p) ->
  let s' := performSearch p searchQuery s in
  filteredOptions s'
    = returned (fallbackBranch (configOf p) (showRecentP p) (showTrendingP p) (optionsArr s))
  /\ fetchesAsked s' = fetchesAsked s
  /\ pending s' = pending s
  /\ isLoading s' = isLoading s.
Proof.
  intros Hlen s'. subst s'. unfold performSearch.
  assert (Hguard : (minQueryLength (configOf p) <=? Z.of_nat (length searchQuery)) = false)
    by (apply Z.leb_gt; exact Hlen).
  rewrite Hguard, andb_false_r.
  unfold filterOptionsOf, filterOptions.
  rewrite short_query_takes_fallback by exact Hlen.
  cbn. unfold fetchesAsked. cbn. rewrite flat_map_app. cbn.
  now rewrite app_nil_r.
Qed.

Lemma short_query_never_fetches_witness :
  hasOnSearch fetchingProps = true /\
  let s' := performSearch fetchingProps [] (initialState [pop10; pop30]) in
  filteredOptions s'
    = returned (fallbackBranch (configOf fetchingProps) true true [pop10; pop30])
  /\ fetchesAsked s' = []
  /\ pending s' = []
  /\ isLoading s' = false.
Proof.
  split; [reflexivity|].
  apply (short_query_never_fetches fetchingProps [] (initialState [pop10; pop30])).
  vm_compute. reflexivity.
Defined.

(** ** Removing a tag *)

Lemma filter_none_removed {A} (f : A -> bool) (l : list A) :
  existsb f l = false -> filter (fun x => negb (f x)) l = l.
Proof.
  induction l as [|x l IH]; simpl; intro H; [reflexivity|].
  apply orb_false_iff in H. destruct H as [Hx Hl].
  rewrite Hx. simpl. f_equal. now apply IH.
Qed.

(** Outside multi mode [handleRemoveTag] does nothing. *)
Lemma remove_single_mode (p : Props) (optionId : str) (s : State) :
  multiple p = false -> handleRemoveTag p optionId s = s.
Proof. intro Hm. unfold handleRemoveTag. now rewrite Hm. Qed.


(** ** Late responses *)

(** C1, as stated, fails. The fetch for "ip" is asked first, the fetch for
    "iphone" second; the answer for "iphone" arrives and is displayed, then
    the answer for "ip" arrives and replaces it. *)
Lemma late_response_overwrites :
  let s1 := run fetchingProps (initialState [])
              [InputChanged (lit "ip"); Elapsed 300;
               InputChanged (lit "iphone"); Elapsed 300;
               Fulfilled (lit "iphone") [iphone]] in
  let s2 := step fetchingProps s1 (Fulfilled (lit "ip") [ipad; iphone]) in
  fetchesAsked s1 = [lit "ip"; lit "iphone"] /\
  query s1 = lit "iphone" /\
  pending s1 = [lit "ip"] /\
  filteredOptions s1 = [iphone] /\
  filteredOptions s2 = [iphone; ipad] /\
  filteredOptions s2 <> filteredOptions s1.
Proof. vm_compute. repeat split. discriminate. Qed.

(** C1, amended. A response is applied when it arrives: as soon as the
    promise of a pending fetch fulfils, the displayed list is the filter of
    that fetch's query over its results, whatever was asked or displayed in
    between. *)
Theorem response_applied_on_arrival (p : Props) (s : State) (searchQuery : str)
    (results : list AutocompleteOption) :
  isPending searchQuery s = true ->
  let s' := step p s (Fulfilled searchQuery results) in
  filteredOptions s' = returned (filterOptionsOf p searchQuery results)
  /\ isLoading s' = false
  /\ pending s' = settle searchQuery (pending s).
Proof. intro Hp. cbn. rewrite Hp. repeat split. Qed.

Lemma response_applied_on_arrival_witness :
  let s := run fetchingProps (initialState [])
             [InputChanged (lit "ip"); Elapsed 300] in
  let s' := step fetchingProps s (Fulfilled (lit "ip") [ipad; iphone]) in
  filteredOptions s' = returned (filterOptionsOf fetchingProps (lit "ip") [ipad; iphone])
  /\ isLoading s' = false
  /\ pending s' = settle (lit "ip") (pending s).
Proof.
  apply (response_applied_on_arrival fetchingProps
           (run fetchingProps (initialState []) [InputChanged (lit "ip"); Elapsed 300])
           (lit "ip") [ipad; iphone]).
  vm_compute. reflexivity.
Defined.

(** ** The sort *)

Section SortFacts.

Context {A : Type}.
Variable cmp : A -> A -> Z.

Lemma sort_insert_perm (x : A) (l : list A) : Permutation (x :: l) (sort_insert cmp x l).
Proof.
  induction l as [|y l IH]; simpl; [apply Permutation_refl|].
  destruct (cmp x y <=? 0); [apply Permutation_refl|].
  eapply perm_trans; [apply perm_swap|]. now apply perm_skip.
Qed.

Lemma sort_perm (l : list A) : Permutation l (sort cmp l).
Proof.
  induction l as [|x l IH]; simpl; [constructor|].
  eapply perm_trans; [|apply sort_insert_perm]. now apply perm_skip.
Qed.

Lemma sort_length (l : list A) : length (sort cmp l) = length l.
Proof. symmetry. apply Permutation_length, sort_perm. Qed.

(** A list whose neighbours are in order is left as it is. *)
Lemma sort_of_sorted (l : list A) : Sorted (inOrder cmp) l -> sort cmp l = l.
Proof.
  induction 1 as [|x l Hs IH Hhd]; simpl; [reflexivity|].
  rewrite IH. destruct Hhd as [|y l Hxy]; simpl; [reflexivity|].
  unfold inOrder in Hxy. apply Z.leb_le in Hxy. now rewrite Hxy.
Qed.

(** An element passes only elements that its predicate does not hold of,
    provided that the comparator never puts two of them out of order. *)
Lemma sort_insert_filter (P : A -> bool) (x : A) (l : list A) :
  (forall y, P x = true -> P y = true -> cmp x y <= 0) ->
  filter P (sort_insert cmp x l) = filter P (x :: l).
Proof.
  intro Htie. induction l as [|y l IH]; [reflexivity|].
  cbn [sort_insert]. destruct (cmp x y <=? 0) eqn:E; [reflexivity|].
  apply Z.leb_gt in E.
  cbn [filter] in *. rewrite IH.
  destruct (P x) eqn:Px; [|reflexivity].
  destruct (P y) eqn:Py; [|reflexivity].
  specialize (Htie y eq_refl Py). lia.
Qed.

Lemma sort_filter (P : A -> bool) (l : list A) :
  (forall x y, P x = true -> P y = true -> cmp x y <= 0) ->
  filter P (sort cmp l) = filter P l.
Proof.
  intro Htie. induction l as [|x l IH]; [reflexivity|].
  cbn [sort]. rewrite sort_insert_filter by (intro y; apply Htie).
  cbn [filter]. now rewrite IH.
Qed.

(** When one of two elements out of order is in order the other way
    round, the sort leaves neighbours in order. *)
Hypothesis cmp_total : forall x y, 0 < cmp x y -> cmp y x <= 0.

Lemma sort_insert_sorted (x : A) (l : list A) :
  Sorted (inOrder cmp) l -> Sorted (inOrder cmp) (sort_insert cmp x l).
Proof.
  induction 1 as [|y l Hs IH Hhd]; simpl.
  - repeat constructor.
  - destruct (cmp x y <=? 0) eqn:E.
    + apply Z.leb_le in E. repeat constructor; assumption.
    + apply Z.leb_gt in E. constructor; [exact IH|].
      destruct Hhd as [|z l Hyz]; simpl.
      * constructor. now apply cmp_total.
      * destruct (cmp x z <=? 0); constructor; [now apply cmp_total|exact Hyz].
Qed.

Lemma sort_sorted (l : list A) : Sorted (inOrder cmp) (sort cmp l).
Proof.
  induction l as [|x l IH]; simpl; [constructor|]. now apply sort_insert_sorted.
Qed.

Lemma sort_idempotent (l : list A) : sort cmp (sort cmp l) = sort cmp l.
Proof. apply sort_of_sorted, sort_sorted. Qed.

End SortFacts.

(** ** The ranker *)

Lemma rankCmp_total (q : str) (a b : AutocompleteOption) :
  0 < rankCmp q a b -> rankCmp q b a <= 0.
Proof.
  unfold rankCmp.
  destruct (startsWith (toLowerCase (label a)) (toLowerCase q)),
           (startsWith (toLowerCase (label b)) (toLowerCase q)); simpl; lia.
Qed.

Lemma rankCmp_trans (q : str) (a b c : AutocompleteOption) :
  rankCmp q a b <= 0 -> rankCmp q b c <= 0 -> rankCmp q a c <= 0.
Proof.
  unfold rankCmp.
  destruct (startsWith (toLowerCase (label a)) (toLowerCase q)),
           (startsWith (toLowerCase (label b)) (toLowerCase q)),
           (startsWith (toLowerCase (label c)) (toLowerCase q)); simpl; lia.
Qed.

Lemma rankCmp_same_key (q : str) (k : bool * Z) (a b : AutocompleteOption) :
  hasRankKey q k a = true -> hasRankKey q k b = true -> rankCmp q a b <= 0.
Proof.
  unfold hasRankKey, rankKey, rankCmp. cbn [fst snd].
  intros Ha Hb.
  apply andb_true_iff in Ha. destruct Ha as [Ha1 Ha2].
  apply andb_true_iff in Hb. destruct Hb as [Hb1 Hb2].
  apply Bool.eqb_prop in Ha1. apply Bool.eqb_prop in Hb1.
  apply Z.eqb_eq in Ha2. apply Z.eqb_eq in Hb2.
  rewrite Ha1, Hb1. destruct (fst k); simpl; lia.
Qed.

(** The ranked list is a rearrangement of the matched one, ordered as the
    comparator says: a label that starts with the query never follows one
    that does not, and within each of the two groups the popularity never
    increases. *)
Lemma rank_perm (q : str) (l : list AutocompleteOption) : Permutation l (rank q l).
Proof. apply sort_perm. Qed.

Lemma rank_ordered (q : str) (l : list AutocompleteOption) :
  StronglySorted (fun a b => rankCmp q a b <= 0) (rank q l).
Proof.
  apply Sorted_StronglySorted.
  - intros a b c. apply rankCmp_trans.
  - apply (sort_sorted (rankCmp q)). apply rankCmp_total.
Qed.

(** C7. Ranking a ranked list under the same query changes nothing, and
    the options that share a comparator key (same prefix status, same
    popularity with absent read as 0) stand in the ranked list in the
    order they had in the input. *)
Theorem rank_idempotent_and_stable (searchQuery : str) (l : list AutocompleteOption) :
  rank searchQuery (rank searchQuery l) = rank searchQuery l
  /\ forall k : bool * Z,
       filter (hasRankKey searchQuery k) (rank searchQuery l)
       = filter (hasRankKey searchQuery k) l.
Proof.
  split.
  - apply sort_idempotent. apply rankCmp_total.
  - intro k. apply sort_filter. intros x y. apply rankCmp_same_key.
Qed.

(** ** The fallback selection *)

Lemma findIndex_from_bounds {A} (p : A -> bool) (i : Z) (l : list A) :
  existsb p l = true ->
  i <= findIndex_from p i l < i + Z.of_nat (length l).
Proof.
  revert i. induction l as [|x l IH]; intros i H; [discriminate|].
  cbn [findIndex_from length]. simpl in H.
  destruct (p x); [lia|].
  specialize (IH (i + 1) H). lia.
Qed.

(** The index of the first hit, when [x] is a hit behind [pre]. *)
Lemma findIndex_from_app_hit {A} (p : A -> bool) (i : Z) (pre : list A) (x : A) (post : list A) :
  p x = true ->
  (findIndex_from p i (pre ++ x :: post) =? i + Z.of_nat (length pre))
  = negb (existsb p pre).
Proof.
  intro Hx. revert i. induction pre as [|y pre IH]; intro i.
  - cbn. rewrite Hx. apply Z.eqb_eq. lia.
  - cbn [app findIndex_from existsb length]. destruct (p y) eqn:Py; simpl.
    + apply Z.eqb_neq. lia.
    + rewrite <- IH with (i := i + 1). f_equal. lia.
Qed.

Lemma findIndex_app_hit {A} (p : A -> bool) (pre : list A) (x : A) (post : list A) :
  p x = true ->
  (findIndex p (pre ++ x :: post) =? Z.of_nat (length pre)) = negb (existsb p pre).
Proof. intro Hx. unfold findIndex. now rewrite <- (findIndex_from_app_hit p 0 pre x post Hx). Qed.

(** Only the set of the ids seen matters. *)
Lemma keepFirstById_seen_ext (l : list AutocompleteOption) :
  forall seen1 seen2,
    (forall i, existsb (fun j => str_eqb j i) seen1 = existsb (fun j => str_eqb j i) seen2) ->
    keepFirstById seen1 l = keepFirstById seen2 l.
Proof.
  induction l as [|x l IH]; intros seen1 seen2 Hext; [reflexivity|].
  cbn [keepFirstById]. rewrite (Hext (id x)).
  destruct (existsb (fun j => str_eqb j (id x)) seen2).
  - now apply IH.
  - f_equal. apply IH. intro i. cbn [existsb]. now rewrite Hext.
Qed.

Lemma existsb_id_map (x : AutocompleteOption) (pre : list AutocompleteOption) :
  existsb (fun o => str_eqb (id o) (id x)) pre
  = existsb (fun j => str_eqb j (id x)) (map id pre).
Proof. induction pre as [|y pre IH]; simpl; [reflexivity|]. now rewrite IH. Qed.

Lemma dedup_from_keepFirst (l : list AutocompleteOption) :
  forall pre,
    filteri_from
      (fun opt index => findIndex (fun o => str_eqb (id o) (id opt)) (pre ++ l) =? index)
      (Z.of_nat (length pre)) l
    = keepFirstById (map id pre) l.
Proof.
  induction l as [|x l IH]; intro pre; [reflexivity|].
  cbn [filteri_from keepFirstById].
  rewrite (findIndex_app_hit (fun o => str_eqb (id o) (id x)) pre x l)
    by apply str_eqb_refl.
  specialize (IH (pre ++ [x])).
  rewrite <- app_assoc, length_app, map_app in IH. cbn [app length map] in IH.
  replace (Z.of_nat (length pre + 1)) with (Z.of_nat (length pre) + 1) in IH by lia.
  rewrite IH. rewrite existsb_id_map.
  destruct (existsb (fun j => str_eqb j (id x)) (map id pre)) eqn:E; cbn [negb].
  - apply keepFirstById_seen_ext. intro i.
    rewrite existsb_app. cbn [existsb]. rewrite orb_false_r.
    destruct (str_eqb (id x) i) eqn:Exi; [|apply orb_false_r].
    apply str_eqb_eq in Exi. subst i. now rewrite E.
  - f_equal. apply keepFirstById_seen_ext. intro i.
    rewrite existsb_app. cbn [existsb]. rewrite orb_false_r. apply orb_comm.
Qed.

(** Line 136 keeps exactly the first occurrence of every id. *)
Lemma dedupById_keepFirst (arr : list AutocompleteOption) :
  dedupById arr = keepFirstById [] arr.
Proof. exact (dedup_from_keepFirst arr []). Qed.

Lemma keepFirstById_NoDup (l : list AutocompleteOption) :
  forall seen,
    NoDup (map id (keepFirstById seen l))
    /\ forall o, In o (keepFirstById seen l) ->
         In o l /\ existsb (fun j => str_eqb j (id o)) seen = false.
Proof.
  induction l as [|x l IH]; intro seen; cbn [keepFirstById].
  - split; [constructor|]. intros o [].
  - destruct (existsb (fun j => str_eqb j (id x)) seen) eqn:E.
    + destruct (IH seen) as [Hnd Hin]. split; [exact Hnd|].
      intros o Ho. destruct (Hin o Ho). split; [now right|assumption].
    + destruct (IH (id x :: seen)) as [Hnd Hin]. split.
      * cbn [map]. constructor; [|exact Hnd].
        intro Hmem. apply in_map_iff in Hmem. destruct Hmem as [o [Hid Ho]].
        destruct (Hin o Ho) as [_ Hfresh]. cbn [existsb] in Hfresh.
        rewrite Hid, str_eqb_refl in Hfresh. discriminate.
      * intros o [<-|Ho]; [split; [now left|exact E]|].
        destruct (Hin o Ho) as [Hl Hfresh]. cbn [existsb] in Hfresh.
        apply orb_false_iff in Hfresh. split; [now right|tauto].
Qed.

Lemma Sorted_weaken {A} (R R' : A -> A -> Prop) (l : list A) :
  (forall a b, R a b -> R' a b) -> Sorted R l -> Sorted R' l.
Proof.
  intros Himp. induction 1 as [|a t _ IH Hhd]; constructor; [exact IH|].
  destruct Hhd; constructor. now apply Himp.
Qed.

(** The popular slice is taken from the options in an order where the
    popularity never increases. *)
Lemma popular_ordered (l : list AutocompleteOption) :
  StronglySorted (fun a b => popularityOr0 b <= popularityOr0 a) (sort popularityCmp l)
  /\ Permutation l (sort popularityCmp l).
Proof.
  split; [|apply sort_perm].
  apply Sorted_StronglySorted; [intros a b c Hab Hbc; cbv beta in *; lia|].
  apply Sorted_weaken with (R := inOrder popularityCmp).
  - unfold inOrder, popularityCmp. intros a b Hab. lia.
  - apply sort_sorted. unfold popularityCmp. intros; lia.
Qed.

Lemma sort_by_popularity (l : list AutocompleteOption) :
  sortedByPopularity l (sort popularityCmp l).
Proof.
  destruct (popular_ordered l) as [Hsorted Hperm].
  split; [exact Hperm|]. split; [exact Hsorted|].
  intro n. apply sort_filter. intros x y Hx Hy.
  apply Z.eqb_eq in Hx, Hy. unfold popularityCmp. lia.
Qed.

(** The three conditions leave one order only. *)
Lemma ordered_classes_unique (s1 : list AutocompleteOption) :
  forall s2,
    StronglySorted (fun a b => popularityOr0 b <= popularityOr0 a) s1 ->
    StronglySorted (fun a b => popularityOr0 b <= popularityOr0 a) s2 ->
    (forall n : Z, filter (fun c => popularityOr0 c =? n) s1
                   = filter (fun c => popularityOr0 c =? n) s2) ->
    s1 = s2.
Proof.
  induction s1 as [|x s1 IH]; intros s2 Hs1 Hs2 Hcls.
  - destruct s2 as [|y s2]; [reflexivity|].
    specialize (Hcls (popularityOr0 y)). cbn [filter] in Hcls.
    rewrite Z.eqb_refl in Hcls. discriminate.
  - destruct s2 as [|y s2].
    { specialize (Hcls (popularityOr0 x)). cbn [filter] in Hcls.
      rewrite Z.eqb_refl in Hcls. discriminate. }
    apply StronglySorted_inv in Hs1. destruct Hs1 as [Hs1 Hx].
    apply StronglySorted_inv in Hs2. destruct Hs2 as [Hs2 Hy].
    rewrite Forall_forall in Hx, Hy.
    assert (Hle1 : popularityOr0 y <= popularityOr0 x).
    { pose proof (Hcls (popularityOr0 y)) as H. cbn [filter] in H.
      rewrite (Z.eqb_refl (popularityOr0 y)) in H.
      destruct (popularityOr0 x =? popularityOr0 y) eqn:E; [apply Z.eqb_eq in E; lia|].
      assert (Hin : In y (filter (fun c => popularityOr0 c =? popularityOr0 y) s1))
        by (rewrite H; now left).
      apply filter_In in Hin. now apply Hx. }
    assert (Hle2 : popularityOr0 x <= popularityOr0 y).
    { pose proof (Hcls (popularityOr0 x)) as H. cbn [filter] in H.
      rewrite (Z.eqb_refl (popularityOr0 x)) in H.
      destruct (popularityOr0 y =? popularityOr0 x) eqn:E; [apply Z.eqb_eq in E; lia|].
      assert (Hin : In x (filter (fun c => popularityOr0 c =? popularityOr0 x) s2))
        by (rewrite <- H; now left).
      apply filter_In in Hin. now apply Hy. }
    assert (Hxy : x = y).
    { pose proof (Hcls (popularityOr0 x)) as H. cbn [filter] in H.
      rewrite (Z.eqb_refl (popularityOr0 x)) in H.
      replace (popularityOr0 y =? popularityOr0 x) with true in H
        by (symmetry; apply Z.eqb_eq; lia).
      congruence. }
    subst y. f_equal. apply IH; [exact Hs1|exact Hs2|].
    intro n. specialize (Hcls n). cbn [filter] in Hcls.
    destruct (popularityOr0 x =? n); congruence.
Qed.

Lemma sortedByPopularity_unique (l s1 s2 : list AutocompleteOption) :
  sortedByPopularity l s1 -> sortedByPopularity l s2 -> s1 = s2.
Proof.
  intros (_ & Hs1 & Hc1) (_ & Hs2 & Hc2).
  apply ordered_classes_unique; [exact Hs1|exact Hs2|].
  intro n. now rewrite Hc1, Hc2.
Qed.

(** C6. For a query shorter than [minQueryLength] (and a [maxResults]
    that is not negative) the result is the first 3 recent options (when
    [showRecent]), then the first 3 trending ones (when [showTrending]),
    then the first 4 of the candidates in descending order of popularity,
    deduplicated by id keeping the first occurrence and cut to
    [maxResults]. The descending order is the one order of the candidates
    in which no option stands before a more popular one and options of
    equal popularity keep their places. *)
Theorem fallback_matches_spec
    (config : SearchConfig) (filterBy : list Field) (showRecent showTrending : bool)
    (searchQuery : str) (candidates : list AutocompleteOption) :
  Z.of_nat (length searchQuery) < minQueryLength config ->
  0 <= maxResults config ->
  exists byPopularity,
    sortedByPopularity candidates byPopularity
    /\ (forall other, sortedByPopularity candidates other -> other = byPopularity)
    /\ returned (filterOptions config filterBy showRecent showTrending searchQuery candidates)
       = specFallback config showRecent showTrending candidates byPopularity.
Proof.
  intros Hshort Hmax. exists (sort popularityCmp candidates).
  split; [apply sort_by_popularity|]. split.
  - intros other Hother.
    exact (sortedByPopularity_unique candidates _ _ Hother (sort_by_popularity candidates)).
  - unfold filterOptions.
    rewrite short_query_takes_fallback by exact Hshort.
    unfold fallbackBranch, specFallback. cbn [returned].
    rewrite slice0_nonneg by exact Hmax.
    rewrite dedupById_keepFirst.
    now rewrite !slice0_nonneg by lia.
Qed.

Lemma fallback_matches_spec_witness :
  exists byPopularity,
    sortedByPopularity [pop10; recentItem; pop20; pop30] byPopularity
    /\ (forall other,
          sortedByPopularity [pop10; recentItem; pop20; pop30] other -> other = byPopularity)
    /\ returned (filterOptions DEFAULT_SEARCH_CONFIG defaultFilterBy true true []
                   [pop10; recentItem; pop20; pop30])
       = specFallback DEFAULT_SEARCH_CONFIG true true [pop10; recentItem; pop20; pop30]
           byPopularity.
Proof.
  apply (fallback_matches_spec DEFAULT_SEARCH_CONFIG defaultFilterBy true true []
           [pop10; recentItem; pop20; pop30]).
  - vm_compute. reflexivity.
  - vm_compute. discriminate.
Defined.

(** ** The debouncer *)

Lemma performSearch_searchesRun (p : Props) (q : str) (s : State) :
  searchesRun (performSearch p q s) = searchesRun s ++ [q].
Proof.
  unfold performSearch, searchesRun.
  destruct (hasOnSearch p && (minQueryLength (configOf p) <=? Z.of_nat (length q)));
    cbn; rewrite ?flat_map_app; cbn; rewrite ?app_nil_r; reflexivity.
Qed.

Lemma performSearch_timers (p : Props) (q : str) (s : State) :
  timers (performSearch p q s) = timers s
  /\ debounceRef (performSearch p q s) = debounceRef s
  /\ clock (performSearch p q s) = clock s.
Proof.
  unfold performSearch.
  destruct (hasOnSearch p && (minQueryLength (configOf p) <=? Z.of_nat (length q)));
    cbn; repeat split.
Qed.

Lemma clear_all_same_id (tid : nat) (l : list Timer) :
  (forall t, In t l -> timerId t = tid) ->
  filter (fun t => negb (timerId t =? tid)%nat) l = [].
Proof.
  induction l as [|t l IH]; intro Hall; [reflexivity|].
  cbn. rewrite (Hall t (or_introl eq_refl)), Nat.eqb_refl. cbn.
  apply IH. intros t' Ht'. apply Hall. now right.
Qed.

(** A query change leaves exactly one timer armed, the new one. *)
Lemma input_arms_one (p : Props) (q : str) (s : State) :
  timersOwned s ->
  let s' := handleInputChange p q s in
  timers s' = [mkTimer (nextTimer s) (clock s + debounceMs (configOf p)) q]
  /\ debounceRef s' = Some (nextTimer s)
  /\ clock s' = clock s
  /\ trace s' = trace s.
Proof.
  intros Hown. unfold handleInputChange.
  destruct (debounceRef s) as [tid|] eqn:Href.
  - cbn. rewrite Href. cbn. rewrite clear_all_same_id; [repeat split|].
    intros t Ht. specialize (Hown t Ht). congruence.
  - cbn. rewrite Href. cbn.
    destruct (timers s) as [|t ts] eqn:Hts; [repeat split|].
    specialize (Hown t). rewrite Hts in Hown.
    specialize (Hown (or_introl eq_refl)). congruence.
Qed.

(** Before its deadline a lone timer stays armed and nothing runs. *)
Lemma elapse_before_deadline (p : Props) (ms : nat) (s : State) (t : Timer) :
  timers s = [t] -> (clock s + ms < deadline t)%nat ->
  let s' := elapse p ms s in
  timers s' = [t]
  /\ debounceRef s' = debounceRef s
  /\ clock s' = (clock s + ms)%nat
  /\ trace s' = trace s.
Proof.
  intros Ht Hlt. unfold elapse. rewrite Ht. cbn [filter].
  assert (Hnot : (deadline t <=? clock s + ms)%nat = false) by (apply Nat.leb_gt; exact Hlt).
  rewrite Hnot. cbn. repeat split.
Qed.

(** At or after its deadline a lone timer fires: its search runs, once,
    and no timer is left. *)
Lemma elapse_after_deadline (p : Props) (ms : nat) (s : State) (t : Timer) :
  timers s = [t] -> (deadline t <= clock s + ms)%nat ->
  let s' := elapse p ms s in
  timers s' = [] /\ searchesRun s' = searchesRun s ++ [timerQuery t].
Proof.
  intros Ht Hle. unfold elapse. rewrite Ht. cbn [filter].
  assert (Hdue : (deadline t <=? clock s + ms)%nat = true) by (apply Nat.leb_le; exact Hle).
  rewrite Hdue. cbn [negb sort sort_insert fold_left].
  rewrite performSearch_searchesRun.
  destruct (performSearch_timers p (timerQuery t)
              (set_clock (clock s + ms) (set_timers [] s))) as [Htm _].
  rewrite Htm. split; reflexivity.
Qed.

Lemma last_cons_default {A} (x d : A) (l : list A) : last (x :: l) d = last l x.
Proof.
  revert x d. induction l as [|y l IH]; intros x d; [reflexivity|].
  change (last (x :: y :: l) d) with (last (y :: l) d).
  now rewrite (IH y d), (IH y x).
Qed.

(** The changes that follow an armed timer, each before the debounce
    delay has passed, postpone the search; it runs once the input pauses. *)
Lemma burst_tail (p : Props) (rest : list (nat * str)) (quiet : nat) :
  Forall (fun gq => (fst gq < debounceMs (configOf p))%nat) rest ->
  (debounceMs (configOf p) <= quiet)%nat ->
  forall (s : State) (t : Timer),
    timers s = [t] -> debounceRef s = Some (timerId t) ->
    deadline t = (clock s + debounceMs (configOf p))%nat ->
    let s' := run p s (flat_map (fun gq => [Elapsed (fst gq); InputChanged (snd gq)]) rest
                         ++ [Elapsed quiet]) in
    timers s' = []
    /\ searchesRun s' = searchesRun s ++ [last (map snd rest) (timerQuery t)].
Proof.
  intros Hgaps Hquiet. induction Hgaps as [|[gap q] rest Hgap _ IH]; intros s t Ht Href Hdl.
  - cbn. apply elapse_after_deadline; [exact Ht|lia].
  - cbn [flat_map fst snd app run fold_left step map]. cbn [fst] in Hgap.
    destruct (elapse_before_deadline p gap s t Ht ltac:(lia)) as (Ht1 & Href1 & Hclk1 & Htr1).
    assert (Hown : timersOwned (elapse p gap s)).
    { intros t' Hin. rewrite Ht1 in Hin. destruct Hin as [<-|[]]. congruence. }
    destruct (input_arms_one p q (elapse p gap s) Hown) as (Ht2 & Href2 & Hclk2 & Htr2).
    specialize (IH (handleInputChange p q (elapse p gap s)) _ Ht2 Href2).
    cbn [deadline timerQuery timerId] in IH.
    specialize (IH ltac:(now rewrite Hclk2)).
    unfold run in IH. destruct IH as [IHt IHs]. split; [exact IHt|].
    rewrite IHs. rewrite last_cons_default.
    unfold searchesRun. now rewrite Htr2, Htr1.
Qed.

(** C9. A burst of query changes, each within [debounceMs] of the one
    before, followed by a pause of at least [debounceMs], runs exactly one
    search, with the last query of the burst; no timer stays armed. *)
Theorem debounce_runs_last_query_once
    (p : Props) (s : State) (first : str) (rest : list (nat * str)) (quiet : nat) :
  timersOwned s ->
  Forall (fun gq => (fst gq < debounceMs (configOf p))%nat) rest ->
  (debounceMs (configOf p) <= quiet)%nat ->
  let s' := run p s (burst first rest ++ [Elapsed quiet]) in
  searchesRun s' = searchesRun s ++ [lastQuery first rest]
  /\ timers s' = [].
Proof.
  intros Hown Hgaps Hquiet. unfold burst.
  cbn [app run fold_left step].
  destruct (input_arms_one p first s Hown) as (Ht & Href & Hclk & Htr).
  destruct (burst_tail p rest quiet Hgaps Hquiet (handleInputChange p first s) _ Ht Href)
    as [Htimers Hruns].
  { cbn [deadline]. now rewrite Hclk. }
  unfold run in Htimers, Hruns. split; [|exact Htimers].
  rewrite Hruns. cbn [timerQuery]. unfold lastQuery, searchesRun. now rewrite Htr.
Qed.

Lemma debounce_runs_last_query_once_witness :
  let s' := run fetchingProps (initialState [])
              (burst (lit "i") [(100%nat, lit "ip"); (299%nat, lit "iph")]
               ++ [Elapsed 300]) in
  searchesRun s' = searchesRun (initialState []) ++ [lit "iph"]
  /\ timers s' = [].
Proof.
  apply (debounce_runs_last_query_once fetchingProps (initialState []) (lit "i")
           [(100%nat, lit "ip"); (299%nat, lit "iph")] 300%nat).
  - intros t [].
  - repeat constructor.
  - vm_compute. reflexivity.
Defined.

(** ** The edit distance *)

Lemma cellsOk_row0 (ar ap : str) : cellsOk ap ar [] (seq (S (length ap)) (length ar)).
Proof.
  revert ap. induction ar as [|c ar IH]; intro ap; [exact I|].
  cbn [length seq cellsOk]. split.
  - split; [rewrite length_app; cbn; lia|discriminate].
  - specialize (IH (ap ++ [c])). rewrite length_app in IH. cbn [length] in IH.
    now replace (S (length ap + 1)) with (S (S (length ap))) in IH by lia.
Qed.

Lemma rowOk_row0 (a : str) : rowOk a [] (lev_row0 a).
Proof.
  unfold lev_row0. cbn [seq rowOk]. split.
  - split; [cbn; lia|reflexivity].
  - apply (cellsOk_row0 a []).
Qed.

Lemma cellsOk_step (bj : ascii) (y : str) (ar : str) :
  forall ap diag ups left,
    cellOk ap y diag -> cellOk ap (y ++ [bj]) left -> cellsOk ap ar y ups ->
    cellsOk ap ar (y ++ [bj]) (lev_cells bj ar diag ups left).
Proof.
  induction ar as [|c ar IH]; intros ap diag ups left Hdiag Hleft Hups.
  - destruct ups; [exact I|contradiction].
  - destruct ups as [|up ups]; [contradiction|].
    destruct Hups as [Hup Hups]. cbn [lev_cells cellsOk].
    set (cost := if ascii_eqb c bj then 0%nat else 1%nat).
    set (v := Nat.min (Nat.min (left + 1) (up + 1)) (diag + cost)).
    assert (Hv : cellOk (ap ++ [c]) (y ++ [bj]) v).
    { destruct Hdiag as [Hdle Hdz]. split.
      - rewrite !length_app. cbn [length].
        assert (cost <= 1)%nat by (unfold cost; destruct (ascii_eqb c bj); lia).
        subst v. lia.
      - intro Hz. assert (Hd0 : diag = 0%nat /\ cost = 0%nat) by (subst v; lia).
        destruct Hd0 as [Hd0 Hc0]. rewrite (Hdz Hd0). f_equal. f_equal.
        unfold cost in Hc0. destruct (ascii_eqb c bj) eqn:E; [|discriminate].
        now apply ascii_eqb_eq. }
    split; [exact Hv|]. apply IH; assumption.
Qed.

Lemma rowOk_step (a y : str) (bj : ascii) (prev : list nat) :
  rowOk a y prev -> rowOk a (y ++ [bj]) (lev_next_row a (S (length y)) bj prev).
Proof.
  destruct prev as [|d0 ups]; [contradiction|]. intros [Hd0 Hups].
  cbn [lev_next_row rowOk].
  assert (Hj : cellOk [] (y ++ [bj]) (S (length y))).
  { split; [rewrite length_app; cbn; lia|discriminate]. }
  split; [exact Hj|]. now apply cellsOk_step.
Qed.

Lemma rowOk_rows (a b : str) :
  forall y prev, rowOk a y prev -> rowOk a (y ++ b) (lev_rows a (length y) b prev).
Proof.
  induction b as [|bj b IH]; intros y prev Hprev.
  - now rewrite app_nil_r.
  - cbn [lev_rows]. specialize (IH (y ++ [bj]) _ (rowOk_step a y bj prev Hprev)).
    rewrite <- app_assoc, length_app in IH. cbn [app length] in IH.
    now replace (length y + 1)%nat with (S (length y)) in IH by lia.
Qed.

Lemma cellsOk_last (y ar : str) :
  forall ap d0 cells,
    cellOk ap y d0 -> cellsOk ap ar y cells -> cellOk (ap ++ ar) y (last (d0 :: cells) 0%nat).
Proof.
  induction ar as [|c ar IH]; intros ap d0 cells Hd0 Hcells.
  - destruct cells; [|contradiction]. now rewrite app_nil_r.
  - destruct cells as [|v cells]; [contradiction|]. destruct Hcells as [Hv Hcells].
    change (last (d0 :: v :: cells) 0%nat) with (last (v :: cells) 0%nat).
    specialize (IH (ap ++ [c]) v cells Hv Hcells).
    now rewrite <- app_assoc in IH.
Qed.

Lemma levenshteinDistance_ok (a b : str) : cellOk a b (levenshteinDistance a b).
Proof.
  unfold levenshteinDistance.
  pose proof (rowOk_rows a b [] (lev_row0 a) (rowOk_row0 a)) as Hrow.
  cbn [app length] in Hrow.
  destruct (lev_rows a 0 b (lev_row0 a)) as [|d0 cells]; [contradiction|].
  destruct Hrow as [Hd0 Hcells].
  exact (cellsOk_last b a [] d0 cells Hd0 Hcells).
Qed.

(** The distance is at most the longer of the two lengths. *)
Lemma levenshteinDistance_le_max (a b : str) :
  (levenshteinDistance a b <= Nat.max (length a) (length b))%nat.
Proof. apply levenshteinDistance_ok. Qed.

(** Only equal strings are at distance 0. *)
Lemma levenshteinDistance_zero (a b : str) : levenshteinDistance a b = 0%nat -> a = b.
Proof. apply levenshteinDistance_ok. Qed.

(** ** The similarity test *)

Lemma ratio_bounds (d m : nat) :
  (0 < m)%nat -> (d <= m)%nat ->
  (0 <= inject_Z (Z.of_nat d) / inject_Z (Z.of_nat m) <= 1)%Q.
Proof.
  intros Hm Hd.
  assert (Hpos : (0 < inject_Z (Z.of_nat m))%Q).
  { change 0%Q with (inject_Z 0). rewrite <- Zlt_Qlt. lia. }
  split.
  - apply Qle_shift_div_l; [exact Hpos|].
    rewrite Qmult_0_l. change 0%Q with (inject_Z 0). rewrite <- Zle_Qle. lia.
  - apply Qle_shift_div_r; [exact Hpos|].
    rewrite Qmult_1_l. rewrite <- Zle_Qle. lia.
Qed.

Lemma ratio_positive (d m : nat) :
  (0 < m)%nat -> (0 < d)%nat ->
  (0 < inject_Z (Z.of_nat d) / inject_Z (Z.of_nat m))%Q.
Proof.
  intros Hm Hd.
  apply Qlt_shift_div_l.
  - change 0%Q with (inject_Z 0). rewrite <- Zlt_Qlt. lia.
  - rewrite Qmult_0_l. change 0%Q with (inject_Z 0). rewrite <- Zlt_Qlt. lia.
Qed.

(** A threshold of at most 0 accepts every distance within range. *)
Lemma similarity_ge_low (d m : nat) (t : Q) :
  (0 < m)%nat -> (d <= m)%nat -> (t <= 0)%Q -> similarity_ge d m t = true.
Proof.
  intros Hm Hd Ht. unfold similarity_ge.
  destruct (m =? 0)%nat eqn:E; [apply Nat.eqb_eq in E; lia|].
  apply Qle_bool_iff.
  pose proof (ratio_bounds d m Hm Hd) as [_ Hle].
  set (x := (inject_Z (Z.of_nat d) / inject_Z (Z.of_nat m))%Q) in *. clearbody x. lra.
Qed.

(** A threshold of at least 1 accepts the distance 0 only. *)
Lemma similarity_ge_high (d m : nat) (t : Q) :
  (1 <= t)%Q -> similarity_ge d m t = true -> d = 0%nat.
Proof.
  intros Ht. unfold similarity_ge.
  destruct (m =? 0)%nat eqn:E; [discriminate|].
  apply Nat.eqb_neq in E. intro H. apply Qle_bool_iff in H.
  destruct d as [|d]; [reflexivity|].
  pose proof (ratio_positive (S d) m ltac:(lia) ltac:(lia)) as Hpos.
  set (x := (inject_Z (Z.of_nat (S d)) / inject_Z (Z.of_nat m))%Q) in *. clearbody x. lra.
Qed.

(** The test depends on the threshold only up to equality of rationals. *)
Lemma similarity_ge_Qeq (d m : nat) (t t' : Q) :
  (t == t')%Q -> similarity_ge d m t = similarity_ge d m t'.
Proof.
  intro Heq. unfold similarity_ge. destruct (m =? 0)%nat; [reflexivity|].
  apply eq_true_iff_eq. rewrite !Qle_bool_iff. now rewrite Heq.
Qed.

(** ** Substrings *)

Lemma startsWith_iff (s p : str) : startsWith s p = true <-> exists post, s = p ++ post.
Proof.
  revert s. induction p as [|x p IH]; intro s.
  - destruct s; simpl; split; eauto.
  - destruct s as [|y s]; simpl.
    + split; [discriminate|]. intros [post H]. discriminate.
    + rewrite andb_true_iff, ascii_eqb_eq, IH. split.
      * intros [-> [post ->]]. now exists post.
      * intros [post H]. injection H as -> ->. split; [reflexivity|now exists post].
Qed.

Lemma includes_iff (s p : str) :
  includes s p = true <-> exists pre post, s = pre ++ p ++ post.
Proof.
  induction s as [|c s IH].
  - cbn [includes]. rewrite orb_false_r, startsWith_iff. split.
    + intros [post H]. now exists [], post.
    + intros [pre [post H]]. destruct pre; [now exists post|discriminate].
  - cbn [includes]. rewrite orb_true_iff, startsWith_iff, IH. split.
    + intros [[post H]|[pre [post H]]].
      * now exists [], post.
      * exists (c :: pre), post. now rewrite H.
    + intros [pre [post H]]. destruct pre as [|c' pre].
      * left. now exists post.
      * right. injection H as _ H. now exists pre, post.
Qed.

Lemma includes_empty (s : str) : includes s [] = true.
Proof. apply includes_iff. now exists [], s. Qed.

Lemma includes_part (s w p : str) :
  (exists pre post, s = pre ++ w ++ post) -> includes w p = true -> includes s p = true.
Proof.
  intros [pre [post ->]] Hw. apply includes_iff in Hw. destruct Hw as [pre' [post' ->]].
  apply includes_iff. exists (pre ++ pre'), (post' ++ post).
  now rewrite <- !app_assoc.
Qed.

Lemma split_ws_from_nonempty (prev : bool) (s : str) : split_ws_from prev s <> [].
Proof.
  revert prev. induction s as [|c s IH]; intro prev; cbn [split_ws_from]; [discriminate|].
  destruct (is_space c).
  - destruct prev; [apply IH|discriminate].
  - destruct (split_ws_from false s); discriminate.
Qed.

(** The first piece of a split starts the string. *)
Lemma split_ws_first (s : str) :
  forall w0 ws, split_ws_from false s = w0 :: ws -> exists post, s = w0 ++ post.
Proof.
  induction s as [|c s IH]; intros w0 ws E; cbn [split_ws_from] in E.
  - injection E as <- <-. now exists [].
  - destruct (is_space c).
    + injection E as <- _. now exists (c :: s).
    + destruct (split_ws_from false s) as [|w1 ws1] eqn:E1.
      * now elim (split_ws_from_nonempty false s).
      * injection E as <- <-. destruct (IH w1 ws1 eq_refl) as [post ->].
        now exists post.
Qed.

(** Every piece of a split is a part of the string. *)
Lemma split_ws_from_part (s : str) :
  forall prev w, In w (split_ws_from prev s) -> exists pre post, s = pre ++ w ++ post.
Proof.
  induction s as [|c s IH]; intros prev w Hin; cbn [split_ws_from] in Hin.
  - destruct Hin as [<-|[]]. now exists [], [].
  - destruct (is_space c).
    + assert (Hrest : w = [] \/ In w (split_ws_from true s)).
      { destruct prev; [now right|]. destruct Hin as [<-|Hin]; [now left|now right]. }
      destruct Hrest as [->|Hrest]; [now exists [], (c :: s)|].
      destruct (IH true w Hrest) as [pre [post ->]]. now exists (c :: pre), post.
    + destruct (split_ws_from false s) as [|w0 ws] eqn:E.
      * now elim (split_ws_from_nonempty false s).
      * destruct Hin as [<-|Hin].
        -- destruct (split_ws_first s w0 ws E) as [post ->]. now exists [], post.
        -- destruct (IH false w) as [pre [post ->]]; [rewrite E; now right|].
           now exists (c :: pre), post.
Qed.

Lemma substring_part (w : str) (i n : nat) :
  exists pre post, w = pre ++ substring w i (i + n) ++ post.
Proof.
  unfold substring. replace (i + n - i)%nat with n by lia.
  exists (firstn i w), (skipn n (skipn i w)).
  now rewrite firstn_skipn, firstn_skipn.
Qed.

(** ** The threshold outside [0,1] *)

(** With a threshold of at least 1 a word matches only when it contains
    the query as it is. *)
Lemma word_match_high (q w : str) (t : Q) :
  (1 <= t)%Q -> word_match q w t = true -> includes w q = true.
Proof.
  intros Ht H. unfold word_match in H. apply orb_true_iff in H. destruct H as [H|H].
  - apply similarity_ge_high in H; [|exact Ht].
    apply levenshteinDistance_zero in H. subst w.
    apply includes_iff. exists [], []. now rewrite app_nil_r.
  - unfold window_match in H.
    destruct (length q <=? length w)%nat; [|discriminate].
    apply existsb_exists in H. destruct H as [i [_ H]].
    apply similarity_ge_high in H; [|exact Ht].
    apply levenshteinDistance_zero in H.
    destruct (substring_part w i (length q)) as [pre [post Hw]].
    apply includes_iff. exists pre, post. rewrite <- H in Hw. exact Hw.
Qed.

(** With a threshold of at most 0 every word matches a query that is
    not empty. *)
Lemma word_match_low (q w : str) (t : Q) :
  q <> [] -> (t <= 0)%Q -> word_match q w t = true.
Proof.
  intros Hq Ht. unfold word_match. apply orb_true_iff. left.
  apply similarity_ge_low; [|apply levenshteinDistance_le_max|exact Ht].
  destruct q; [contradiction|]. cbn [length]. lia.
Qed.

Lemma fuzzyMatch_clamp (query text : str) (t : Q) :
  fuzzyMatch query text t = fuzzyMatch query text (clamp01 t).
Proof.
  unfold fuzzyMatch.
  destruct (includes (toLowerCase text) (toLowerCase query)) eqn:Hinc; [reflexivity|].
  assert (Hq : toLowerCase query <> []).
  { intro Hnil. rewrite Hnil, includes_empty in Hinc. discriminate. }
  unfold clamp01. destruct (Qle_bool t 0) eqn:Hlow.
  - apply Qle_bool_iff in Hlow. unfold split_ws.
    destruct (split_ws_from false (toLowerCase text)) as [|w ws] eqn:E;
      [now elim (split_ws_from_nonempty false (toLowerCase text))|].
    cbn [existsb]. rewrite !word_match_low; auto. apply Qle_refl.
  - destruct (Qle_bool 1 t) eqn:Hhigh; [|reflexivity].
    apply Qle_bool_iff in Hhigh.
    assert (Hnone : forall t', (1 <= t')%Q ->
              existsb (fun word => word_match (toLowerCase query) word t')
                (split_ws (toLowerCase text)) = false).
    { intros t' Ht'. apply not_true_is_false. intro Hex.
      apply existsb_exists in Hex. destruct Hex as [w [Hin Hw]].
      apply word_match_high in Hw; [|exact Ht'].
      apply split_ws_from_part in Hin.
      rewrite (includes_part _ _ _ Hin Hw) in Hinc. discriminate. }
    rewrite (Hnone t Hhigh). symmetry. apply Hnone. apply Qle_refl.
Qed.

Lemma matchOption_clamp (config : SearchConfig) (filterBy : list Field) (t : Q)
    (q : str) (o : AutocompleteOption) :
  matchOption (withThreshold t config) filterBy q o
  = matchOption (withThreshold (clamp01 t) config) filterBy q o.
Proof.
  unfold matchOption. cbn [algorithm caseSensitive fuzzyThreshold withThreshold].
  destruct (algorithm config); try reflexivity.
  - apply fuzzyMatch_clamp.
  - now rewrite <- fuzzyMatch_clamp.
Qed.

Lemma filterOptions_clamp (config : SearchConfig) (filterBy : list Field)
    (showRecent showTrending : bool) (t : Q) (q : str) (l : list AutocompleteOption) :
  filterOptions (withThreshold t config) filterBy showRecent showTrending q l
  = filterOptions (withThreshold (clamp01 t) config) filterBy showRecent showTrending q l.
Proof.
  unfold filterOptions, filterOptionsWith.
  cbn [minQueryLength maxResults withThreshold].
  destruct ((match q with [] => true | _ :: _ => false end)
            || (Z.of_nat (length q) <? minQueryLength config)); [reflexivity|].
  f_equal. f_equal. f_equal. apply filter_ext. intro o. apply matchOption_clamp.
Qed.

(** ** [maxResults] out of range *)

Lemma filteri_from_length {A} (p : A -> Z -> bool) (l : list A) :
  forall i, (length (filteri_from p i l) <= length l)%nat.
Proof.
  induction l as [|x l IH]; intro i; cbn [filteri_from length]; [lia|].
  specialize (IH (i + 1)). destruct (p x i); cbn [length]; lia.
Qed.

Lemma filter_length_le {A} (f : A -> bool) (l : list A) :
  (length (filter f l) <= length l)%nat.
Proof. induction l as [|x l IH]; simpl; [lia|]. destruct (f x); simpl; lia. Qed.

Lemma slice0_const_length {A} (l : list A) (n : nat) :
  (length (slice0 l (Z.of_nat n)) <= n)%nat.
Proof. rewrite slice0_nonneg by lia. rewrite Nat2Z.id, length_firstn. lia. Qed.

Lemma matchOption_withMax (m : Z) (config : SearchConfig) (filterBy : list Field)
    (q : str) (o : AutocompleteOption) :
  matchOption (withMax m config) filterBy q o = matchOption config filterBy q o.
Proof. reflexivity. Qed.

Lemma fallback_pool_length (showRecent showTrending : bool) (l : list AutocompleteOption) :
  (length ((if showRecent
            then slice0 (filter (fun opt => truthy (recent opt)) l) 3 else [])
           ++ (if showTrending
               then slice0 (filter (fun opt => truthy (trending opt)) l) 3 else [])
           ++ slice0 (sort popularityCmp l) 4) <= 10)%nat.
Proof.
  rewrite !length_app.
  pose proof (slice0_const_length (sort popularityCmp l) 4) as H4.
  pose proof (slice0_const_length (filter (fun opt => truthy (recent opt)) l) 3) as H3.
  pose proof (slice0_const_length (filter (fun opt => truthy (trending opt)) l) 3) as H3'.
  change (Z.of_nat 4) with 4 in H4. change (Z.of_nat 3) with 3 in H3, H3'.
  destruct showRecent, showTrending; cbn [length]; lia.
Qed.

(** The list that the final [slice] of [filterOptions] is applied to. *)
Lemma filterOptions_before_slice (config : SearchConfig) (filterBy : list Field)
    (showRecent showTrending : bool) (q : str) (l : list AutocompleteOption) :
  exists whole,
    (Z.of_nat (length whole) <= unlimited l)
    /\ forall m,
         returned (filterOptions (withMax m config) filterBy showRecent showTrending q l)
         = slice0 whole m.
Proof.
  unfold filterOptions, filterOptionsWith, unlimited.
  cbn [minQueryLength maxResults withMax].
  destruct ((match q with [] => true | _ :: _ => false end)
            || (Z.of_nat (length q) <? minQueryLength config)).
  - unfold fallbackBranch. cbn [returned maxResults withMax].
    eexists. split; [|intro m; reflexivity].
    unfold dedupById, filteri.
    match goal with
    | |- context [filteri_from ?p 0 ?arr] =>
        pose proof (filteri_from_length p arr 0) as Hlen
    end.
    pose proof (fallback_pool_length showRecent showTrending l) as Hpool. lia.
  - cbn [returned].
    exists (rank q (filter (matchOption config filterBy q) l)).
    split; [|intro m; reflexivity].
    unfold rank. rewrite sort_length.
    pose proof (filter_length_le (matchOption config filterBy q) l). lia.
Qed.

(** With [unlimited] as [maxResults] nothing is cut off. *)
Lemma unlimited_returns_whole (config : SearchConfig) (filterBy : list Field)
    (showRecent showTrending : bool) (q : str) (l : list AutocompleteOption) (m : Z) :
  returned (filterOptions (withMax m config) filterBy showRecent showTrending q l)
  = slice0 (returned (filterOptions (withMax (unlimited l) config) filterBy
                        showRecent showTrending q l)) m.
Proof.
  destruct (filterOptions_before_slice config filterBy showRecent showTrending q l)
    as [whole [Hlen Hall]].
  rewrite (Hall m), (Hall (unlimited l)). now rewrite (slice0_all whole (unlimited l) Hlen).
Qed.

(** C3, as stated, fails: with [maxResults = -1] three matches give two
    results, while the nearest valid bound, 1, gives one. *)
Lemma negative_maxResults_not_clamped :
  let candidates := [macbookPro; macbookAir; iphone] in
  let search m :=
    returned (filterOptions (mergeConfig (withMaxResults m)) defaultFilterBy true true
                (lit "o") candidates) in
  search (-1) = [iphone; macbookPro]
  /\ search 1 = [iphone]
  /\ search (-1) <> search 1.
Proof. vm_compute. repeat split. discriminate. Qed.

(** C3, amended. No value is clamped and no value makes the search fail.
    A threshold outside [0,1] gives what the nearest bound gives. A
    [maxResults] that is not positive is used as the end of [slice]: 0
    gives no result and [-k], for [k >= 1], gives the list without its
    last [k] options. *)
Theorem out_of_range_configuration (config : SearchConfig) (filterBy : list Field)
    (showRecent showTrending : bool) (q : str) (l : list AutocompleteOption) :
  (forall t,
     filterOptions (withThreshold t config) filterBy showRecent showTrending q l
     = filterOptions (withThreshold (clamp01 t) config) filterBy showRecent showTrending q l)
  /\ returned (filterOptions (withMax 0 config) filterBy showRecent showTrending q l) = []
  /\ (forall k : nat,
        let whole := returned (filterOptions (withMax (unlimited l) config) filterBy
                                 showRecent showTrending q l) in
        returned (filterOptions (withMax (- Z.of_nat (S k)) config) filterBy
                    showRecent showTrending q l)
        = firstn (length whole - S k) whole).
Proof.
  split; [intro t; apply filterOptions_clamp|]. split.
  - rewrite unlimited_returns_whole. apply slice0_zero.
  - intros k whole. subst whole. rewrite unlimited_returns_whole.
    apply slice0_negative_drops. lia.
Qed.

(** ** What a call does to the array it is given *)

(** The search branch leaves the array as it was. *)
Lemma search_keeps_argument (config : SearchConfig) (filterBy : list Field)
    (showRecent showTrending : bool) (q : str) (l : list AutocompleteOption) :
  q <> [] -> minQueryLength config <= Z.of_nat (length q) ->
  argumentAfter (filterOptions config filterBy showRecent showTrending q l) = l.
Proof.
  intros Hq Hlen. unfold filterOptions.
  now rewrite long_query_takes_search by assumption.
Qed.

(** The fallback branch leaves it sorted by popularity: the same options,
    in another order as soon as a more popular option stood behind a less
    popular one. *)
Lemma fallback_sorts_argument (config : SearchConfig) (filterBy : list Field)
    (showRecent showTrending : bool) (q : str) (l : list AutocompleteOption) :
  Z.of_nat (length q) < minQueryLength config ->
  argumentAfter (filterOptions config filterBy showRecent showTrending q l)
    = sort popularityCmp l
  /\ Permutation l (argumentAfter (filterOptions config filterBy showRecent showTrending q l)).
Proof.
  intro Hlen. unfold filterOptions.
  rewrite short_query_takes_fallback by exact Hlen.
  cbn [fallbackBranch argumentAfter]. split; [reflexivity|apply sort_perm].
Qed.

(** C8 at a concrete input: after the fallback branch ran on the options
    of popularity 10 and 30, the array that was passed holds them in the
    other order. *)
Lemma fallback_reorders_argument :
  argumentAfter (filterOptions DEFAULT_SEARCH_CONFIG defaultFilterBy true true []
                   [pop10; pop30]) = [pop30; pop10]
  /\ optionsArr (step fetchingProps (initialState [pop10; pop30]) Mounted) = [pop30; pop10].
Proof. split; reflexivity. Qed.

(** ** Invariants of the component *)

Lemma fold_performSearch_timers (p : Props) (ts : list Timer) :
  forall s,
    let s' := fold_left (fun s t => performSearch p (timerQuery t) s) ts s in
    timers s' = timers s /\ debounceRef s' = debounceRef s.
Proof.
  induction ts as [|t ts IH]; intro s; cbn [fold_left]; [split; reflexivity|].
  destruct (IH (performSearch p (timerQuery t) s)) as [Ht Hr].
  destruct (performSearch_timers p (timerQuery t) s) as (Ht' & Hr' & _).
  cbn zeta. now rewrite Ht, Hr, Ht', Hr'.
Qed.

Lemma timersOwned_initial (opts : list AutocompleteOption) : timersOwned (initialState opts).
Proof. intros t []. Qed.

Lemma timersOwned_step (p : Props) (s : State) (e : Event) :
  timersOwned s -> timersOwned (step p s e).
Proof.
  intro Hown. destruct e as [|q|ms|q results|q|optionId]; cbn [step].
  - destruct (performSearch_timers p [] s) as (Ht & Hr & _).
    intros t Hin. rewrite Ht in Hin. rewrite Hr. now apply Hown.
  - destruct (input_arms_one p q s Hown) as (Ht & Hr & _).
    intros t Hin. rewrite Ht in Hin. destruct Hin as [<-|[]]. exact Hr.
  - unfold elapse.
    match goal with
    | |- timersOwned (fold_left ?f ?ts ?s0) =>
        destruct (fold_performSearch_timers p ts s0) as [Ht Hr]
    end.
    intros t Hin. rewrite Ht in Hin. rewrite Hr. cbn in Hin |- *.
    apply filter_In in Hin. apply Hown, Hin.
  - destruct (isPending q s); [|exact Hown]. exact Hown.
  - destruct (isPending q s); [|exact Hown]. exact Hown.
  - unfold handleRemoveTag. destruct (multiple p), (hasOnChange p); exact Hown.
Qed.

(** In every state that the component reaches, the armed timers are
    owned by [debounceRef]: the premise of the debounce theorem. *)
Lemma timersOwned_run (p : Props) (events : list Event) :
  forall s, timersOwned s -> timersOwned (run p s events).
Proof.
  induction events as [|e events IH]; intros s Hown; [exact Hown|].
  cbn [run fold_left]. apply IH. now apply timersOwned_step.
Qed.

Lemma handleInputChange_trace (p : Props) (q : str) (s : State) :
  trace (handleInputChange p q s) = trace s.
Proof.
  unfold handleInputChange.
  destruct (debounceRef s) eqn:Href; cbn; rewrite Href; reflexivity.
Qed.

Lemma performSearch_fetches (p : Props) (q : str) (s : State) :
  fetchesLongEnough p s -> fetchesLongEnough p (performSearch p q s).
Proof.
  unfold fetchesLongEnough, fetchesAsked, performSearch. intro H.
  destruct (hasOnSearch p) eqn:Hs; cbn [andb].
  - destruct (minQueryLength (configOf p) <=? Z.of_nat (length q)) eqn:Hlen; cbn.
    + rewrite !flat_map_app. cbn. rewrite app_nil_r.
      apply Forall_app. split; [exact H|]. constructor; [|constructor].
      now apply Z.leb_le.
    + rewrite flat_map_app. cbn. now rewrite app_nil_r.
  - cbn. rewrite flat_map_app. cbn. now rewrite app_nil_r.
Qed.

Lemma fold_performSearch_fetches (p : Props) (ts : list Timer) :
  forall s,
    fetchesLongEnough p s ->
    fetchesLongEnough p (fold_left (fun s t => performSearch p (timerQuery t) s) ts s).
Proof.
  induction ts as [|t ts IH]; intros s H; [exact H|].
  cbn [fold_left]. apply IH. now apply performSearch_fetches.
Qed.

Lemma fetchesLongEnough_step (p : Props) (s : State) (e : Event) :
  fetchesLongEnough p s -> fetchesLongEnough p (step p s e).
Proof.
  intro H. destruct e as [|q|ms|q results|q|optionId]; cbn [step].
  - now apply performSearch_fetches.
  - unfold fetchesLongEnough, fetchesAsked. now rewrite handleInputChange_trace.
  - unfold elapse. apply fold_performSearch_fetches. exact H.
  - destruct (isPending q s); exact H.
  - destruct (isPending q s); [|exact H].
    unfold fetchesLongEnough, fetchesAsked, searchRejected. cbn.
    rewrite flat_map_app. cbn. rewrite app_nil_r. exact H.
  - unfold handleRemoveTag. destruct (multiple p), (hasOnChange p); try exact H.
    unfold fetchesLongEnough, fetchesAsked. cbn.
    rewrite flat_map_app. cbn. rewrite app_nil_r. exact H.
Qed.

(** X30. Whatever happens to a mounted component, [onSearch] is never
    asked for a query shorter than [minQueryLength]. *)
Lemma fetches_never_short (p : Props) (opts : list AutocompleteOption) (events : list Event) :
  fetchesLongEnough p (run p (initialState opts) events).
Proof.
  assert (Hgen : forall s, fetchesLongEnough p s -> fetchesLongEnough p (run p s events)).
  { induction events as [|e events IH]; intros s H; [exact H|].
    cbn [run fold_left]. apply IH. now apply fetchesLongEnough_step. }
  apply Hgen. constructor.
Qed.

(** * Further properties *)

(** ** The edit distance and its recurrence *)

Lemma editDistance_nil_r (a : str) : editDistance a [] = length a.
Proof. destruct a; reflexivity. Qed.

Lemma editDistance_cons (c d : ascii) (a b : str) :
  editDistance (c :: a) (d :: b)
  = Nat.min (Nat.min (editDistance a (d :: b) + 1) (editDistance (c :: a) b + 1))
            (editDistance a b + (if ascii_eqb c d then 0 else 1))%nat.
Proof. reflexivity. Qed.

Lemma ascii_eqb_sym (c d : ascii) : ascii_eqb c d = ascii_eqb d c.
Proof. unfold ascii_eqb. apply Ascii.eqb_sym. Qed.

Lemma editDistance_sym (a : str) : forall b, editDistance a b = editDistance b a.
Proof.
  induction a as [|c a IHa]; intro b.
  - now rewrite editDistance_nil_r.
  - induction b as [|d b IHb]; [reflexivity|].
    rewrite !editDistance_cons, IHb, (IHa (d :: b)), (IHa b), (ascii_eqb_sym c d).
    lia.
Qed.

Lemma editDistance_refl (a : str) : editDistance a a = 0%nat.
Proof.
  induction a as [|c a IH]; [reflexivity|].
  rewrite editDistance_cons, IH. unfold ascii_eqb. rewrite Ascii.eqb_refl. lia.
Qed.

(** The distance is at least the difference of the lengths. *)
Lemma editDistance_lower (a : str) :
  forall b, (length a - length b <= editDistance a b
             /\ length b - length a <= editDistance a b)%nat.
Proof.
  induction a as [|c a IHa]; intro b.
  - cbn. lia.
  - induction b as [|d b IHb]; [cbn; lia|].
    rewrite editDistance_cons.
    destruct (IHa (d :: b)) as [H1 H2]. destruct (IHa b) as [H3 H4].
    destruct IHb as [H5 H6]. cbn [length] in *. lia.
Qed.

Lemma cellsAre_row0 (ar ap : str) : cellsAre ap ar [] (seq (S (length ap)) (length ar)).
Proof.
  revert ap. induction ar as [|c ar IH]; intro ap; [exact I|].
  cbn [length seq cellsAre]. split.
  - unfold cellIs. cbn [rev]. now rewrite editDistance_nil_r, length_rev, length_app, Nat.add_1_r.
  - specialize (IH (ap ++ [c])). rewrite length_app in IH. cbn [length] in IH.
    now replace (S (length ap + 1)) with (S (S (length ap))) in IH by lia.
Qed.

Lemma rowIs_row0 (a : str) : rowIs a [] (lev_row0 a).
Proof.
  unfold lev_row0. cbn [seq rowIs]. split; [reflexivity|apply (cellsAre_row0 a [])].
Qed.

Lemma cellsAre_step (bj : ascii) (y : str) (ar : str) :
  forall ap diag ups left,
    cellIs ap y diag -> cellIs ap (y ++ [bj]) left -> cellsAre ap ar y ups ->
    cellsAre ap ar (y ++ [bj]) (lev_cells bj ar diag ups left).
Proof.
  induction ar as [|c ar IH]; intros ap diag ups left Hdiag Hleft Hups.
  - destruct ups; [exact I|contradiction].
  - destruct ups as [|up ups]; [contradiction|].
    destruct Hups as [Hup Hups]. cbn [lev_cells cellsAre].
    match goal with |- cellIs _ _ ?v /\ _ => assert (Hv : cellIs (ap ++ [c]) (y ++ [bj]) v) end.
    { unfold cellIs in *. rewrite !rev_unit, editDistance_cons.
      rewrite rev_unit in Hleft, Hup. now rewrite <- Hleft, <- Hup, <- Hdiag. }
    split; [exact Hv|]. apply IH; assumption.
Qed.

Lemma rowIs_step (a y : str) (bj : ascii) (prev : list nat) :
  rowIs a y prev -> rowIs a (y ++ [bj]) (lev_next_row a (S (length y)) bj prev).
Proof.
  destruct prev as [|d0 ups]; [contradiction|]. intros [Hd0 Hups].
  cbn [lev_next_row rowIs].
  assert (Hj : cellIs [] (y ++ [bj]) (S (length y))).
  { unfold cellIs. cbn [rev editDistance]. now rewrite length_rev, length_app, Nat.add_1_r. }
  split; [exact Hj|]. now apply cellsAre_step.
Qed.

Lemma rowIs_rows (a b : str) :
  forall y prev, rowIs a y prev -> rowIs a (y ++ b) (lev_rows a (length y) b prev).
Proof.
  induction b as [|bj b IH]; intros y prev Hprev.
  - now rewrite app_nil_r.
  - cbn [lev_rows]. specialize (IH (y ++ [bj]) _ (rowIs_step a y bj prev Hprev)).
    rewrite <- app_assoc, length_app in IH. cbn [app length] in IH.
    now replace (length y + 1)%nat with (S (length y)) in IH by lia.
Qed.

Lemma cellsAre_last (y ar : str) :
  forall ap d0 cells,
    cellIs ap y d0 -> cellsAre ap ar y cells -> cellIs (ap ++ ar) y (last (d0 :: cells) 0%nat).
Proof.
  induction ar as [|c ar IH]; intros ap d0 cells Hd0 Hcells.
  - destruct cells; [|contradiction]. now rewrite app_nil_r.
  - destruct cells as [|v cells]; [contradiction|]. destruct Hcells as [Hv Hcells].
    change (last (d0 :: v :: cells) 0%nat) with (last (v :: cells) 0%nat).
    specialize (IH (ap ++ [c]) v cells Hv Hcells).
    now rewrite <- app_assoc in IH.
Qed.

(** The matrix computes the recurrence, on the strings read backwards. *)
Lemma levenshteinDistance_recurrence (a b : str) :
  levenshteinDistance a b = editDistance (rev a) (rev b).
Proof.
  unfold levenshteinDistance.
  pose proof (rowIs_rows a b [] (lev_row0 a) (rowIs_row0 a)) as Hrow.
  cbn [app length] in Hrow.
  destruct (lev_rows a 0 b (lev_row0 a)) as [|d0 cells]; [contradiction|].
  destruct Hrow as [Hd0 Hcells].
  exact (cellsAre_last b a [] d0 cells Hd0 Hcells).
Qed.

(** X1. The distance does not depend on the order of its arguments. *)
Theorem distance_symmetric (a b : str) :
  levenshteinDistance a b = levenshteinDistance b a.
Proof. rewrite !levenshteinDistance_recurrence. apply editDistance_sym. Qed.

(** X2. The distance is 0 exactly between equal strings. *)
Theorem distance_zero_iff_equal (a b : str) :
  levenshteinDistance a b = 0%nat <-> a = b.
Proof.
  split; [apply levenshteinDistance_zero|].
  intros ->. rewrite levenshteinDistance_recurrence. apply editDistance_refl.
Qed.

(** X3. The distance lies between the difference of the two lengths and
    the longer length; so the distance to the empty string is the length,
    on either side. *)
Theorem distance_bounds (a b : str) :
  (Nat.max (length a) (length b) - Nat.min (length a) (length b)
     <= levenshteinDistance a b <= Nat.max (length a) (length b))%nat
  /\ levenshteinDistance a [] = length a
  /\ levenshteinDistance [] b = length b.
Proof.
  assert (Hlow : forall x y : str,
            (Nat.max (length x) (length y) - Nat.min (length x) (length y)
             <= levenshteinDistance x y)%nat).
  { intros x y. rewrite levenshteinDistance_recurrence.
    destruct (editDistance_lower (rev x) (rev y)) as [H1 H2].
    rewrite !length_rev in H1, H2. lia. }
  split; [split; [apply Hlow|apply levenshteinDistance_le_max]|].
  split.
  - pose proof (Hlow a []) as H1. pose proof (levenshteinDistance_le_max a []) as H2.
    cbn [length] in *. lia.
  - pose proof (Hlow [] b) as H1. pose proof (levenshteinDistance_le_max [] b) as H2.
    cbn [length] in *. lia.
Qed.

(** ** The matching predicates *)

Lemma similarity_ge_mono (d m : nat) (t t' : Q) :
  (t' <= t)%Q -> similarity_ge d m t = true -> similarity_ge d m t' = true.
Proof.
  intros Hle. unfold similarity_ge. destruct (m =? 0)%nat; [discriminate|].
  rewrite !Qle_bool_iff. intro H. eapply Qle_trans; eassumption.
Qed.

Lemma existsb_impl {A} (f g : A -> bool) (l : list A) :
  (forall x, f x = true -> g x = true) -> existsb f l = true -> existsb g l = true.
Proof.
  intros Himp H. apply existsb_exists in H. destruct H as [x [Hin Hx]].
  apply existsb_exists. exists x. split; [exact Hin|now apply Himp].
Qed.

Lemma word_match_mono (q w : str) (t t' : Q) :
  (t' <= t)%Q -> word_match q w t = true -> word_match q w t' = true.
Proof.
  intros Hle H. unfold word_match, window_match in *.
  apply orb_true_iff in H. apply orb_true_iff. destruct H as [H|H].
  - left. eapply similarity_ge_mono; eassumption.
  - right. destruct (length q <=? length w)%nat; [|discriminate].
    revert H. apply existsb_impl. intros i. now apply similarity_ge_mono.
Qed.

(** X4. Lowering the threshold never loses a fuzzy match. *)
Theorem fuzzyMatch_threshold_monotone (query text : str) (t t' : Q) :
  (t' <= t)%Q -> fuzzyMatch query text t = true -> fuzzyMatch query text t' = true.
Proof.
  intros Hle. unfold fuzzyMatch.
  destruct (includes (toLowerCase text) (toLowerCase query)); [reflexivity|].
  apply existsb_impl. intros w. now apply word_match_mono.
Qed.

Lemma fuzzyMatch_threshold_monotone_witness :
  fuzzyMatch (lit "macbok") (lit "MacBook Pro") (1#4) = true.
Proof.
  apply (fuzzyMatch_threshold_monotone (lit "macbok") (lit "MacBook Pro") (1#2) (1#4)).
  - vm_compute. discriminate.
  - vm_compute. reflexivity.
Defined.

Lemma fuzzyMatch_of_includes (query text : str) (t : Q) :
  includes (toLowerCase text) (toLowerCase query) = true -> fuzzyMatch query text t = true.
Proof. intro H. unfold fuzzyMatch. now rewrite H. Qed.

Lemma hybrid_is_fuzzy (config : SearchConfig) (filterBy : list Field) (q : str)
    (o : AutocompleteOption) :
  matchOption (withAlgorithm Hybrid config) filterBy q o
  = matchOption (withAlgorithm Fuzzy config) filterBy q o.
Proof.
  unfold matchOption. cbn [algorithm fuzzyThreshold withAlgorithm].
  destruct (includes (toLowerCase (searchTextOf filterBy o)) (toLowerCase q)) eqn:E;
    [|reflexivity].
  cbn [orb]. symmetry. now apply fuzzyMatch_of_includes.
Qed.

(** X5. The hybrid and the fuzzy algorithm give the same outcome on
    every input: the substring test that hybrid adds is the first step of
    the fuzzy match already. *)
Theorem hybrid_equals_fuzzy (config : SearchConfig) (filterBy : list Field)
    (showRecent showTrending : bool) (q : str) (l : list AutocompleteOption) :
  filterOptions (withAlgorithm Hybrid config) filterBy showRecent showTrending q l
  = filterOptions (withAlgorithm Fuzzy config) filterBy showRecent showTrending q l.
Proof.
  unfold filterOptions, filterOptionsWith.
  cbn [minQueryLength maxResults withAlgorithm].
  destruct ((match q with [] => true | _ :: _ => false end)
            || (Z.of_nat (length q) <? minQueryLength config)); [reflexivity|].
  f_equal. f_equal. f_equal. apply filter_ext. intro o. apply hybrid_is_fuzzy.
Qed.

Lemma toLowerCase_app (a b : str) : toLowerCase (a ++ b) = toLowerCase a ++ toLowerCase b.
Proof. apply map_app. Qed.

(** X6. What the exact algorithm finds in its case-insensitive mode
    (the default), every other algorithm finds too. *)
Theorem exact_match_found_by_all (config : SearchConfig) (filterBy : list Field)
    (q : str) (o : AutocompleteOption) (a : Algorithm) :
  caseSensitive config = false ->
  matchOption (withAlgorithm Exact config) filterBy q o = true ->
  matchOption (withAlgorithm a config) filterBy q o = true.
Proof.
  intros Hcase H.
  assert (Hinc : includes (toLowerCase (searchTextOf filterBy o)) (toLowerCase q) = true).
  { unfold matchOption in H. cbn [algorithm caseSensitive withAlgorithm] in H.
    now rewrite Hcase in H. }
  destruct a; [| exact H | |]; unfold matchOption;
    cbn [algorithm fuzzyThreshold withAlgorithm].
  - now apply fuzzyMatch_of_includes.
  - now rewrite Hinc.
  - now rewrite Hinc.
Qed.

Lemma exact_match_found_by_all_witness :
  matchOption (withAlgorithm Semantic DEFAULT_SEARCH_CONFIG) defaultFilterBy
    (lit "book") macbookPro = true.
Proof.
  apply (exact_match_found_by_all DEFAULT_SEARCH_CONFIG defaultFilterBy
           (lit "book") macbookPro Semantic).
  - reflexivity.
  - vm_compute. reflexivity.
Defined.

Lemma split_char_trailing (sep : ascii) (s : str) :
  exists w0 ws, split_char sep (s ++ [sep]) = w0 :: ws ++ [[]].
Proof.
  induction s as [|c s [w0 [ws IH]]]; cbn [app split_char].
  - unfold ascii_eqb. rewrite Ascii.eqb_refl. now exists [], [].
  - destruct (ascii_eqb c sep).
    + rewrite IH. now exists [], (w0 :: ws).
    + rewrite IH. now exists (c :: w0), ws.
Qed.

(** X7. Under the semantic algorithm a query that ends with a space
    matches every option: the split of the query at spaces then has an
    empty word, and every text contains the empty word. *)
Theorem semantic_trailing_space_matches_all (config : SearchConfig)
    (filterBy : list Field) (q : str) (o : AutocompleteOption) :
  matchOption (withAlgorithm Semantic config) filterBy (q ++ lit " ") o = true.
Proof.
  unfold matchOption. cbn [algorithm withAlgorithm].
  apply orb_true_iff. right.
  rewrite toLowerCase_app.
  destruct (split_char_trailing " "%char (toLowerCase q)) as [w0 [ws Hsplit]].
  change (toLowerCase (lit " ")) with [" "%char]. rewrite Hsplit.
  apply existsb_exists. exists []. split; [|apply includes_empty].
  right. apply in_or_app. right. now left.
Qed.

(** ** The result list *)

Lemma slice0_prefix {A} (l : list A) (e : Z) : exists rest, l = slice0 l e ++ rest.
Proof. unfold slice0. eexists. symmetry. apply firstn_skipn. Qed.

Lemma slice0_In {A} (l : list A) (e : Z) (x : A) : In x (slice0 l e) -> In x l.
Proof.
  intro H. destruct (slice0_prefix l e) as [rest Hl]. rewrite Hl.
  apply in_or_app. now left.
Qed.

Lemma slice0_length_max {A} (l : list A) (e : Z) :
  0 <= e -> Z.of_nat (length (slice0 l e)) <= e.
Proof.
  intro He. rewrite slice0_nonneg by exact He. rewrite length_firstn. lia.
Qed.

(** X8. With a [maxResults] that is not negative, no more than
    [maxResults] options are returned, whatever the query. *)
Theorem result_size_bounded (config : SearchConfig) (filterBy : list Field)
    (showRecent showTrending : bool) (q : str) (l : list AutocompleteOption) :
  0 <= maxResults config ->
  Z.of_nat (length (returned (filterOptions config filterBy showRecent showTrending q l)))
  <= maxResults config.
Proof.
  intro Hmax. unfold filterOptions, filterOptionsWith, fallbackBranch.
  destruct ((match q with [] => true | _ :: _ => false end)
            || (Z.of_nat (length q) <? minQueryLength config));
    cbn [returned]; now apply slice0_length_max.
Qed.

Lemma result_size_bounded_witness :
  Z.of_nat (length (returned (filterOptions (withMax 2 DEFAULT_SEARCH_CONFIG)
                                defaultFilterBy true true (lit "o")
                                [macbookPro; macbookAir; iphone])))
  <= maxResults (withMax 2 DEFAULT_SEARCH_CONFIG).
Proof.
  apply (result_size_bounded (withMax 2 DEFAULT_SEARCH_CONFIG) defaultFilterBy true true
           (lit "o") [macbookPro; macbookAir; iphone]).
  vm_compute. discriminate.
Defined.

Lemma filteri_from_In {A} (p : A -> Z -> bool) (l : list A) (x : A) :
  forall i, In x (filteri_from p i l) -> In x l.
Proof.
  induction l as [|y l IH]; intros i H; [exact H|].
  cbn [filteri_from] in H. destruct (p y i).
  - destruct H as [<-|H]; [now left|right; now apply (IH (i + 1))].
  - right. now apply (IH (i + 1)).
Qed.

Lemma sort_In {A} (cmp : A -> A -> Z) (l : list A) (x : A) : In x (sort cmp l) -> In x l.
Proof. apply Permutation_in. apply Permutation_sym, sort_perm. Qed.

(** X9. Every option returned is one of the options given; in the search
    branch it also satisfies the matching predicate. *)
Theorem result_from_candidates (config : SearchConfig) (filterBy : list Field)
    (showRecent showTrending : bool) (q : str) (l : list AutocompleteOption)
    (o : AutocompleteOption) :
  In o (returned (filterOptions config filterBy showRecent showTrending q l)) ->
  In o l
  /\ (q <> [] -> minQueryLength config <= Z.of_nat (length q) ->
      matchOption config filterBy q o = true).
Proof.
  intro Hin. split.
  - unfold filterOptions, filterOptionsWith, fallbackBranch in Hin.
    destruct ((match q with [] => true | _ :: _ => false end)
              || (Z.of_nat (length q) <? minQueryLength config));
      cbn [returned] in Hin; apply slice0_In in Hin.
    + unfold dedupById, filteri in Hin. apply filteri_from_In in Hin.
      apply in_app_or in Hin. destruct Hin as [Hin|Hin];
        [|apply in_app_or in Hin; destruct Hin as [Hin|Hin]].
      * destruct showRecent; [|contradiction].
        apply slice0_In in Hin. now apply filter_In in Hin.
      * destruct showTrending; [|contradiction].
        apply slice0_In in Hin. now apply filter_In in Hin.
      * apply slice0_In in Hin. now apply sort_In in Hin.
    + apply sort_In in Hin. now apply filter_In in Hin.
  - intros Hq Hlen. unfold filterOptions in Hin.
    rewrite long_query_takes_search in Hin by assumption.
    cbn [returned] in Hin. apply slice0_In, sort_In, filter_In in Hin. apply Hin.
Qed.

Lemma result_from_candidates_witness :
  In macbookPro [macbookAir; macbookPro]
  /\ (lit "macbok" <> [] ->
      minQueryLength DEFAULT_SEARCH_CONFIG <= Z.of_nat (length (lit "macbok")) ->
      matchOption DEFAULT_SEARCH_CONFIG defaultFilterBy (lit "macbok") macbookPro = true).
Proof.
  apply (result_from_candidates DEFAULT_SEARCH_CONFIG defaultFilterBy true true
           (lit "macbok") [macbookAir; macbookPro] macbookPro).
  vm_compute. left. reflexivity.
Defined.

Lemma NoDup_firstn_of {A} (n : nat) (l : list A) : NoDup l -> NoDup (firstn n l).
Proof.
  revert n. induction l as [|x l IH]; intros n H.
  - rewrite firstn_nil. constructor.
  - destruct n as [|n]; [constructor|]. cbn [firstn].
    apply NoDup_cons_iff in H. destruct H as [Hx Hl].
    constructor; [|now apply IH].
    intro Hin. apply Hx. rewrite <- (firstn_skipn n l). apply in_or_app. now left.
Qed.

(** X10. The fallback branch never returns two options with the same id,
    and never more than ten options. *)
Theorem fallback_ids_distinct (config : SearchConfig) (showRecent showTrending : bool)
    (l : list AutocompleteOption) :
  NoDup (map id (returned (fallbackBranch config showRecent showTrending l)))
  /\ (length (returned (fallbackBranch config showRecent showTrending l)) <= 10)%nat.
Proof.
  unfold fallbackBranch. cbn [returned]. split.
  - unfold slice0. rewrite <- firstn_map. apply NoDup_firstn_of.
    rewrite dedupById_keepFirst. apply keepFirstById_NoDup.
  - pose proof (slice0_length
                  (dedupById
                     ((if showRecent
                       then slice0 (filter (fun opt => truthy (recent opt)) l) 3 else [])
                      ++ (if showTrending
                          then slice0 (filter (fun opt => truthy (trending opt)) l) 3 else [])
                      ++ slice0 (sort popularityCmp l) 4)) (maxResults config)) as H1.
    pose proof (fallback_pool_length showRecent showTrending l) as H2.
    unfold dedupById, filteri in *.
    match type of H1 with
    | context [filteri_from ?p 0 ?arr] => pose proof (filteri_from_length p arr 0) as H3
    end.
    lia.
Qed.

Lemma rankCmp_shownAbove (q : str) (a b : AutocompleteOption) :
  rankCmp q a b <= 0 <-> shownAbove q a b.
Proof.
  unfold rankCmp, shownAbove, labelStartsWith.
  destruct (startsWith (toLowerCase (label a)) (toLowerCase q)),
           (startsWith (toLowerCase (label b)) (toLowerCase q)); cbn [andb negb];
    split; intro H.
  - right. split; [reflexivity|lia].
  - destruct H as [[_ H]|[_ H]]; [discriminate|lia].
  - left. now split.
  - lia.
  - lia.
  - destruct H as [[H _]|[H _]]; discriminate.
  - right. split; [reflexivity|lia].
  - destruct H as [[H _]|[_ H]]; [discriminate|lia].
Qed.

Lemma StronglySorted_firstn {A} (R : A -> A -> Prop) (n : nat) (l : list A) :
  StronglySorted R l -> StronglySorted R (firstn n l).
Proof.
  revert n. induction l as [|x l IH]; intros n H.
  - rewrite firstn_nil. constructor.
  - destruct n as [|n]; [constructor|]. cbn [firstn].
    apply StronglySorted_inv in H. destruct H as [Hl Hx].
    constructor; [now apply IH|].
    apply Forall_forall. intros y Hy. rewrite Forall_forall in Hx. apply Hx.
    rewrite <- (firstn_skipn n l). apply in_or_app. now left.
Qed.

Lemma StronglySorted_weaken {A} (R R' : A -> A -> Prop) (l : list A) :
  (forall a b, R a b -> R' a b) -> StronglySorted R l -> StronglySorted R' l.
Proof.
  intro Himp. induction 1 as [|x l _ IH Hx]; constructor; [exact IH|].
  eapply Forall_impl; [|exact Hx]. intro y. apply Himp.
Qed.

(** X11. In the result of a search every option stands above all the
    options after it: an option whose label starts with the query is never
    below one whose label does not, and within the two groups popularity
    never increases down the list. *)
Theorem search_result_ordered (config : SearchConfig) (filterBy : list Field)
    (showRecent showTrending : bool) (q : str) (l : list AutocompleteOption) :
  q <> [] -> minQueryLength config <= Z.of_nat (length q) ->
  StronglySorted (shownAbove q)
    (returned (filterOptions config filterBy showRecent showTrending q l)).
Proof.
  intros Hq Hlen. unfold filterOptions.
  rewrite long_query_takes_search by assumption. cbn [returned].
  unfold slice0. apply StronglySorted_firstn.
  apply StronglySorted_weaken with (R := fun a b => rankCmp q a b <= 0).
  - intros a b. apply rankCmp_shownAbove.
  - apply rank_ordered.
Qed.

Lemma search_result_ordered_witness :
  StronglySorted (shownAbove (lit "macbok"))
    (returned (filterOptions DEFAULT_SEARCH_CONFIG defaultFilterBy true true
                 (lit "macbok") [macbookAir; macbookPro])).
Proof.
  apply (search_result_ordered DEFAULT_SEARCH_CONFIG defaultFilterBy true true
           (lit "macbok") [macbookAir; macbookPro]).
  - discriminate.
  - vm_compute. discriminate.
Defined.

Lemma filter_keeps_all {A} (f : A -> bool) (l : list A) :
  (forall x, In x l -> f x = true) -> filter f l = l.
Proof.
  induction l as [|x l IH]; intro H; [reflexivity|].
  cbn [filter]. rewrite (H x (or_introl eq_refl)). f_equal.
  apply IH. intros y Hy. apply H. now right.
Qed.

Lemma Sorted_firstn {A} (R : A -> A -> Prop) (n : nat) (l : list A) :
  Sorted R l -> Sorted R (firstn n l).
Proof.
  intro H. revert n. induction H as [|x l Hl IH Hhd]; intro n.
  - rewrite firstn_nil. constructor.
  - destruct n as [|n]; [constructor|]. cbn [firstn].
    constructor; [apply IH|].
    destruct Hhd as [|y l Hxy]; [rewrite firstn_nil; constructor|].
    destruct n; constructor. exact Hxy.
Qed.

(** X12. Filtering the result of a search again, under the same query
    and configuration, gives the same list: what [performSearch] shows
    after an answer of [onSearch] that was itself produced by this filter
    is the answer unchanged. *)
Theorem refilter_idempotent (config : SearchConfig) (filterBy : list Field)
    (showRecent showTrending : bool) (q : str) (l : list AutocompleteOption) :
  q <> [] -> minQueryLength config <= Z.of_nat (length q) -> 0 <= maxResults config ->
  returned (filterOptions config filterBy showRecent showTrending q
              (returned (filterOptions config filterBy showRecent showTrending q l)))
  = returned (filterOptions config filterBy showRecent showTrending q l).
Proof.
  intros Hq Hlen Hmax. unfold filterOptions.
  rewrite !long_query_takes_search by assumption. cbn [returned].
  set (shown := slice0 (rank q (filter (matchOption config filterBy q) l))
                  (maxResults config)).
  assert (Hmatch : filter (matchOption config filterBy q) shown = shown).
  { apply filter_keeps_all. intros o Ho. subst shown.
    apply slice0_In, sort_In, filter_In in Ho. apply Ho. }
  assert (Hsorted : rank q shown = shown).
  { apply sort_of_sorted. subst shown. unfold slice0. apply Sorted_firstn.
    apply sort_sorted. apply rankCmp_total. }
  rewrite Hmatch, Hsorted. apply slice0_all.
  subst shown. now apply slice0_length_max.
Qed.

Lemma refilter_idempotent_witness :
  returned (filterOptions DEFAULT_SEARCH_CONFIG defaultFilterBy true true (lit "macbok")
              (returned (filterOptions DEFAULT_SEARCH_CONFIG defaultFilterBy true true
                           (lit "macbok") [macbookAir; macbookPro])))
  = returned (filterOptions DEFAULT_SEARCH_CONFIG defaultFilterBy true true
                (lit "macbok") [macbookAir; macbookPro]).
Proof.
  apply (refilter_idempotent DEFAULT_SEARCH_CONFIG defaultFilterBy true true
           (lit "macbok") [macbookAir; macbookPro]).
  - discriminate.
  - vm_compute. discriminate.
  - vm_compute. discriminate.
Defined.

(** ** The row that is highlighted *)

Lemma existsb_id_absent (o : AutocompleteOption) (l : list AutocompleteOption) :
  ~ In (id o) (map id l) -> existsb (fun o' => str_eqb (id o') (id o)) l = false.
Proof.
  intro Hnot. apply not_true_is_false. intro H.
  apply existsb_exists in H. destruct H as [o' [Hin Heq]].
  apply str_eqb_eq in Heq. apply Hnot. rewrite <- Heq. now apply in_map.
Qed.

(** X13. The row at position [i] finds its own position exactly when no
    row above it has the same id; so among rows with distinct ids every
    row finds its position, and a row that repeats the id of a row above
    it finds that row's position instead of its own. *)
Theorem globalIndex_of_row (l : list AutocompleteOption) (i : nat)
    (o : AutocompleteOption) :
  nth_error l i = Some o ->
  (globalIndex l o = Z.of_nat i
   <-> existsb (fun o' => str_eqb (id o') (id o)) (firstn i l) = false)
  /\ (NoDup (map id l) -> globalIndex l o = Z.of_nat i).
Proof.
  intro Hnth. apply nth_error_split in Hnth. destruct Hnth as [l1 [l2 [-> Hlen]]].
  subst i.
  assert (Hfirst : firstn (length l1) (l1 ++ o :: l2) = l1).
  { rewrite firstn_app, firstn_all, Nat.sub_diag. cbn. apply app_nil_r. }
  pose proof (findIndex_app_hit (fun o' => str_eqb (id o') (id o)) l1 o l2
                (str_eqb_refl (id o))) as Hidx.
  fold (globalIndex (l1 ++ o :: l2) o) in Hidx.
  assert (Hiff : globalIndex (l1 ++ o :: l2) o = Z.of_nat (length l1)
                 <-> existsb (fun o' => str_eqb (id o') (id o)) l1 = false).
  { rewrite <- Z.eqb_eq, Hidx. apply negb_true_iff. }
  rewrite Hfirst. split; [exact Hiff|].
  intro Hnd. apply Hiff. apply existsb_id_absent.
  rewrite map_app in Hnd. cbn [map] in Hnd.
  apply NoDup_remove_2 in Hnd. intro Hin. apply Hnd. apply in_or_app. now left.
Qed.

Lemma globalIndex_of_row_witness :
  (globalIndex [macbookPro; macbookAir] macbookAir = Z.of_nat 1
   <-> existsb (fun o' => str_eqb (id o') (id macbookAir))
         (firstn 1 [macbookPro; macbookAir]) = false)
  /\ (NoDup (map id [macbookPro; macbookAir]) ->
      globalIndex [macbookPro; macbookAir] macbookAir = Z.of_nat 1).
Proof.
  apply (globalIndex_of_row [macbookPro; macbookAir] 1 macbookAir). reflexivity.
Defined.

(** ** Selecting an option *)

Lemma emit_changesReported (v : Selection) (s : State) :
  changesReported (emit (CalledOnChange v) s) = changesReported s ++ [v].
Proof. unfold changesReported, emit. cbn. now rewrite flat_map_app. Qed.

Lemma handleSelect_multi_reports (p : Props) (o : AutocompleteOption) (s : State) :
  multiple p = true -> hasOnChange p = true ->
  changesReported (handleSelect p o s)
  = changesReported s
    ++ [Many (if hasId (id o) (selectedValues p)
              then filter (fun v => negb (str_eqb (id v) (id o))) (selectedValues p)
              else selectedValues p ++ [o])].
Proof.
  intros Hm Hc. unfold handleSelect. rewrite Hm, Hc.
  change (changesReported (set_recentSearches ?r ?s')) with (changesReported s').
  unfold changesReported at 1. cbn [trace set_recentSearches].
  fold (changesReported (emit (CalledOnChange (Many
          (if existsb (fun v => str_eqb (id v) (id o)) (selectedValues p)
           then filter (fun v => negb (str_eqb (id v) (id o))) (selectedValues p)
           else selectedValues p ++ [o]))) s)).
  apply emit_changesReported.
Qed.

(** X14. In multi mode, selecting an option that is not selected and
    then, once the parent has stored the reported selection, selecting it
    again reports the selection that was there at the start. *)
Theorem select_twice_restores (p : Props) (o : AutocompleteOption) (s s' : State) :
  multiple p = true -> hasOnChange p = true ->
  hasId (id o) (selectedValues p) = false ->
  changesReported (handleSelect p o s)
    = changesReported s ++ [Many (selectedValues p ++ [o])]
  /\ changesReported
       (handleSelect (withSelection (Many (selectedValues p ++ [o])) p) o s')
     = changesReported s' ++ [Many (selectedValues p)].
Proof.
  intros Hm Hc Hnew. split.
  - rewrite handleSelect_multi_reports by assumption. now rewrite Hnew.
  - rewrite handleSelect_multi_reports by assumption.
    cbn [selectedValues withSelection selection].
    unfold hasId in *. rewrite existsb_app. cbn [existsb].
    rewrite str_eqb_refl, orb_true_r.
    rewrite filter_app. cbn [filter]. rewrite str_eqb_refl. cbn [negb].
    rewrite app_nil_r. now rewrite filter_none_removed.
Qed.

Lemma select_twice_restores_witness :
  changesReported (handleSelect multiProps macbookAir (initialState []))
    = changesReported (initialState []) ++ [Many (selectedValues multiProps ++ [macbookAir])]
  /\ changesReported
       (handleSelect (withSelection (Many (selectedValues multiProps ++ [macbookAir]))
                        multiProps) macbookAir (initialState []))
     = changesReported (initialState []) ++ [Many (selectedValues multiProps)].
Proof.
  apply (select_twice_restores multiProps macbookAir (initialState []) (initialState []));
    reflexivity.
Defined.

Lemma NoDup_map_filter {A B} (f : A -> B) (g : A -> bool) (l : list A) :
  NoDup (map f l) -> NoDup (map f (filter g l)).
Proof.
  induction l as [|x l IH]; intro H; [constructor|].
  cbn [map] in H. apply NoDup_cons_iff in H. destruct H as [Hx Hl].
  cbn [filter]. destruct (g x); [|now apply IH].
  cbn [map]. constructor; [|now apply IH].
  intro Hin. apply Hx. apply in_map_iff in Hin. destruct Hin as [y [Hy Hin]].
  apply filter_In in Hin. apply in_map_iff. exists y. tauto.
Qed.

Lemma hasId_In (i : str) (l : list AutocompleteOption) :
  hasId i l = true <-> In i (map id l).
Proof.
  unfold hasId. rewrite existsb_exists, in_map_iff. split.
  - intros [v [Hin Heq]]. apply str_eqb_eq in Heq. now exists v.
  - intros [v [Heq Hin]]. exists v. split; [exact Hin|now apply str_eqb_eq].
Qed.

Lemma hasId_filter_other (i j : str) (l : list AutocompleteOption) :
  i <> j ->
  hasId i (filter (fun v => negb (str_eqb (id v) j)) l) = hasId i l.
Proof.
  intro Hij. induction l as [|x l IH]; [reflexivity|].
  cbn [filter]. destruct (str_eqb (id x) j) eqn:E; cbn [negb].
  - rewrite IH. unfold hasId at 2. cbn [existsb]. fold (hasId i l).
    destruct (str_eqb (id x) i) eqn:E'; [|reflexivity].
    apply str_eqb_eq in E, E'. congruence.
  - unfold hasId in *. cbn [existsb]. now rewrite IH.
Qed.

Lemma hasId_filter_same (j : str) (l : list AutocompleteOption) :
  hasId j (filter (fun v => negb (str_eqb (id v) j)) l) = false.
Proof.
  induction l as [|x l IH]; [reflexivity|].
  cbn [filter]. destruct (str_eqb (id x) j) eqn:E; cbn [negb]; [exact IH|].
  unfold hasId in *. cbn [existsb]. now rewrite E, IH.
Qed.



(** Outside multi mode no tag is rendered, so there is no remover. *)
Lemma no_tags_outside_multi (p : Props) : multiple p = false -> tagRemovals p = [].
Proof. intro Hm. unfold tagRemovals. now rewrite Hm. Qed.



(** X15. In multi mode a selection toggles the option's id and nothing
    else: the reported list has the id exactly when the current one has it
    not, every other id is in the one exactly when it is in the other, and
    ids that were distinct stay distinct. *)
Theorem select_toggles_membership (p : Props) (o : AutocompleteOption) (s : State) :
  multiple p = true -> hasOnChange p = true ->
  exists newSelection,
    changesReported (handleSelect p o s) = changesReported s ++ [Many newSelection]
    /\ hasId (id o) newSelection = negb (hasId (id o) (selectedValues p))
    /\ (forall i, i <> id o -> hasId i newSelection = hasId i (selectedValues p))
    /\ (NoDup (map id (selectedValues p)) -> NoDup (map id newSelection)).
Proof.
  intros Hm Hc. eexists. split; [now apply handleSelect_multi_reports|].
  destruct (hasId (id o) (selectedValues p)) eqn:Hsel; cbn [negb].
  - split; [apply hasId_filter_same|]. split.
    + intros i Hi. now apply hasId_filter_other.
    + apply NoDup_map_filter.
  - split; [|split].
    + unfold hasId. rewrite existsb_app. cbn [existsb].
      now rewrite str_eqb_refl, orb_true_r.
    + intros i Hi. unfold hasId. rewrite existsb_app. cbn [existsb].
      destruct (str_eqb (id o) i) eqn:E; [apply str_eqb_eq in E; congruence|].
      now rewrite !orb_false_r.
    + intro Hnd. rewrite map_app. cbn [map].
      apply Permutation_NoDup with (l := id o :: map id (selectedValues p)).
      * apply Permutation_cons_append.
      * constructor; [|exact Hnd]. intro Hin. apply hasId_In in Hin. congruence.
Qed.

Lemma select_toggles_membership_witness :
  exists newSelection,
    changesReported (handleSelect multiProps macbookPro (initialState []))
      = changesReported (initialState []) ++ [Many newSelection]
    /\ hasId (id macbookPro) newSelection
       = negb (hasId (id macbookPro) (selectedValues multiProps))
    /\ (forall i, i <> id macbookPro ->
        hasId i newSelection = hasId i (selectedValues multiProps))
    /\ (NoDup (map id (selectedValues multiProps)) -> NoDup (map id newSelection)).
Proof.
  apply (select_toggles_membership multiProps macbookPro (initialState []));
    reflexivity.
Defined.

Lemma handleSelect_recent (p : Props) (o : AutocompleteOption) (s : State) :
  recentSearches (handleSelect p o s)
  = slice0 (markRecent o
            :: filter (fun r => negb (str_eqb (id r) (id o))) (recentSearches s)) 5.
Proof.
  unfold handleSelect. cbn [recentSearches set_recentSearches].
  destruct (multiple p), (hasOnChange p); reflexivity.
Qed.

(** X16. After any selection the list of recent searches starts with the
    selected option marked recent, holds at most five options, and holds
    the selected id once; ids that were distinct stay distinct. *)
Theorem recent_searches_bounded (p : Props) (o : AutocompleteOption) (s : State) :
  NoDup (map id (recentSearches s)) ->
  let recents := recentSearches (handleSelect p o s) in
  nth_error recents 0 = Some (markRecent o)
  /\ (length recents <= 5)%nat
  /\ NoDup (map id recents)
  /\ hasId (id o) (skipn 1 recents) = false.
Proof.
  intros Hnd recents. subst recents. rewrite handleSelect_recent.
  set (others := filter (fun r => negb (str_eqb (id r) (id o))) (recentSearches s)).
  rewrite slice0_nonneg by lia. change (Z.to_nat 5) with 5%nat.
  assert (Hfresh : hasId (id o) others = false) by apply hasId_filter_same.
  split; [reflexivity|]. split; [rewrite length_firstn; lia|]. split.
  - rewrite <- firstn_map. apply NoDup_firstn_of. cbn [map markRecent id].
    constructor; [|now apply NoDup_map_filter].
    intro Hin. apply hasId_In in Hin. cbn [id] in Hfresh. congruence.
  - cbn [firstn skipn]. apply not_true_is_false. intro H.
    apply hasId_In in H. apply in_map_iff in H. destruct H as [v [Hv Hin]].
    assert (Hin' : In v others).
    { rewrite <- (firstn_skipn 4 others). apply in_or_app. now left. }
    assert (Hhas : hasId (id o) others = true).
    { apply hasId_In. apply in_map_iff. now exists v. }
    congruence.
Qed.

Lemma recent_searches_bounded_witness :
  let recents := recentSearches (handleSelect multiProps macbookAir (initialState [])) in
  nth_error recents 0 = Some (markRecent macbookAir)
  /\ (length recents <= 5)%nat
  /\ NoDup (map id recents)
  /\ hasId (id macbookAir) (skipn 1 recents) = false.
Proof.
  apply (recent_searches_bounded multiProps macbookAir (initialState [])).
  constructor.
Defined.

(** ** Keyboard navigation *)

(** X17. While the dropdown is open over a list that is not empty,
    ArrowDown brings any index from -1 upwards onto a row, also an index
    left beyond the end by a list that shrank; ArrowUp does so from any
    index between -1 and the length. Neither key touches anything but the
    index. *)
Theorem arrows_stay_in_range (p : Props) (s : State) :
  isOpen s = true -> filteredOptions s <> [] -> -1 <= highlightedIndex s ->
  highlightInRange (handleKeyDown p ArrowDown s)
  /\ (highlightedIndex s <= Z.of_nat (length (filteredOptions s)) ->
      highlightInRange (handleKeyDown p ArrowUp s))
  /\ handleKeyDown p ArrowDown s
     = set_highlightedIndex (highlightedIndex (handleKeyDown p ArrowDown s)) s
  /\ handleKeyDown p ArrowUp s
     = set_highlightedIndex (highlightedIndex (handleKeyDown p ArrowUp s)) s.
Proof.
  intros Hopen Hne Hlow. unfold highlightInRange, handleKeyDown. rewrite Hopen.
  cbn [negb highlightedIndex filteredOptions set_highlightedIndex].
  assert (Hlen : 0 < Z.of_nat (length (filteredOptions s))).
  { destruct (filteredOptions s); [contradiction|cbn [length]; lia]. }
  repeat split.
  - destruct (highlightedIndex s <? Z.of_nat (length (filteredOptions s)) - 1) eqn:E; lia.
  - destruct (highlightedIndex s <? Z.of_nat (length (filteredOptions s)) - 1) eqn:E;
      [apply Z.ltb_lt in E|]; lia.
  - destruct (0 <? highlightedIndex s) eqn:E; [apply Z.ltb_lt in E|]; lia.
  - destruct (0 <? highlightedIndex s) eqn:E; [apply Z.ltb_lt in E|]; lia.
Qed.

Lemma arrows_stay_in_range_witness :
  highlightInRange (handleKeyDown fetchingProps ArrowDown (openState [iphone; ipad] 5))
  /\ (highlightedIndex (openState [iphone; ipad] 5)
        <= Z.of_nat (length (filteredOptions (openState [iphone; ipad] 5))) ->
      highlightInRange (handleKeyDown fetchingProps ArrowUp (openState [iphone; ipad] 5)))
  /\ handleKeyDown fetchingProps ArrowDown (openState [iphone; ipad] 5)
     = set_highlightedIndex
         (highlightedIndex (handleKeyDown fetchingProps ArrowDown (openState [iphone; ipad] 5)))
         (openState [iphone; ipad] 5)
  /\ handleKeyDown fetchingProps ArrowUp (openState [iphone; ipad] 5)
     = set_highlightedIndex
         (highlightedIndex (handleKeyDown fetchingProps ArrowUp (openState [iphone; ipad] 5)))
         (openState [iphone; ipad] 5).
Proof.
  apply (arrows_stay_in_range fetchingProps (openState [iphone; ipad] 5)).
  - reflexivity.
  - discriminate.
  - vm_compute. discriminate.
Defined.

Lemma set_highlightedIndex_same (s : State) : set_highlightedIndex (highlightedIndex s) s = s.
Proof. now destruct s. Qed.

Lemma set_highlightedIndex_twice (i j : Z) (s : State) :
  set_highlightedIndex i (set_highlightedIndex j s) = set_highlightedIndex i s.
Proof. reflexivity. Qed.

Lemma highlightedIndex_set (i : Z) (s : State) :
  highlightedIndex (set_highlightedIndex i s) = i.
Proof. reflexivity. Qed.

Lemma filteredOptions_set (i : Z) (s : State) :
  filteredOptions (set_highlightedIndex i s) = filteredOptions s.
Proof. reflexivity. Qed.

Lemma arrowDown_open (p : Props) (s : State) :
  isOpen s = true ->
  handleKeyDown p ArrowDown s
  = set_highlightedIndex
      (if highlightedIndex s <? Z.of_nat (length (filteredOptions s)) - 1
       then highlightedIndex s + 1 else 0) s.
Proof. intro Hopen. unfold handleKeyDown. now rewrite Hopen. Qed.

Lemma arrowUp_open (p : Props) (s : State) :
  isOpen s = true ->
  handleKeyDown p ArrowUp s
  = set_highlightedIndex
      (if 0 <? highlightedIndex s
       then highlightedIndex s - 1 else Z.of_nat (length (filteredOptions s)) - 1) s.
Proof. intro Hopen. unfold handleKeyDown. now rewrite Hopen. Qed.

(** X18. On a row of an open dropdown, ArrowDown and ArrowUp undo each
    other, wrapping at both ends of the list. *)
Theorem arrows_undo_each_other (p : Props) (s : State) :
  isOpen s = true -> highlightInRange s ->
  handleKeyDown p ArrowUp (handleKeyDown p ArrowDown s) = s
  /\ handleKeyDown p ArrowDown (handleKeyDown p ArrowUp s) = s.
Proof.
  intros Hopen [Hlo Hhi]. split.
  - rewrite (arrowDown_open p s Hopen), arrowUp_open by exact Hopen.
    rewrite set_highlightedIndex_twice, highlightedIndex_set, filteredOptions_set.
    transitivity (set_highlightedIndex (highlightedIndex s) s);
      [f_equal|apply set_highlightedIndex_same].
    destruct (highlightedIndex s <? Z.of_nat (length (filteredOptions s)) - 1) eqn:E.
    + apply Z.ltb_lt in E.
      destruct (0 <? highlightedIndex s + 1) eqn:E'; [lia|apply Z.ltb_ge in E'; lia].
    + apply Z.ltb_ge in E. cbn. lia.
  - rewrite (arrowUp_open p s Hopen), arrowDown_open by exact Hopen.
    rewrite set_highlightedIndex_twice, highlightedIndex_set, filteredOptions_set.
    transitivity (set_highlightedIndex (highlightedIndex s) s);
      [f_equal|apply set_highlightedIndex_same].
    destruct (0 <? highlightedIndex s) eqn:E.
    + apply Z.ltb_lt in E.
      destruct (highlightedIndex s - 1 <? Z.of_nat (length (filteredOptions s)) - 1) eqn:E';
        [lia|apply Z.ltb_ge in E'; lia].
    + apply Z.ltb_ge in E.
      destruct (Z.of_nat (length (filteredOptions s)) - 1
                <? Z.of_nat (length (filteredOptions s)) - 1) eqn:E';
        [apply Z.ltb_lt in E'; lia|lia].
Qed.

Lemma arrows_undo_each_other_witness :
  handleKeyDown fetchingProps ArrowUp
    (handleKeyDown fetchingProps ArrowDown (openState [iphone; ipad] 1))
  = openState [iphone; ipad] 1
  /\ handleKeyDown fetchingProps ArrowDown
       (handleKeyDown fetchingProps ArrowUp (openState [iphone; ipad] 1))
     = openState [iphone; ipad] 1.
Proof.
  apply (arrows_undo_each_other fetchingProps (openState [iphone; ipad] 1)).
  - reflexivity.
  - vm_compute. split; [discriminate|reflexivity].
Defined.

Lemma optionAt_Some (l : list AutocompleteOption) (i : Z) (o : AutocompleteOption) :
  optionAt l i = Some o -> 0 <= i < Z.of_nat (length l) /\ In o l.
Proof.
  unfold optionAt. destruct (i <? 0) eqn:E; [discriminate|].
  apply Z.ltb_ge in E. intro H. split.
  - assert (Hlt : (Z.to_nat i < length l)%nat) by (apply nth_error_Some; congruence). lia.
  - eapply nth_error_In. exact H.
Qed.

Lemma optionAt_None (l : list AutocompleteOption) (i : Z) :
  i < 0 \/ Z.of_nat (length l) <= i -> optionAt l i = None.
Proof.
  intro H. unfold optionAt. destruct (i <? 0) eqn:E; [reflexivity|].
  apply Z.ltb_ge in E. apply nth_error_None. lia.
Qed.

(** X19. Enter in an open dropdown selects the option under an index that
    points at a row, and does nothing at all for any other index; so
    whatever it selects is an option of the displayed list. *)
Theorem enter_selects_displayed_row (p : Props) (s : State) :
  isOpen s = true ->
  (highlightInRange s ->
     exists o, In o (filteredOptions s)
               /\ optionAt (filteredOptions s) (highlightedIndex s) = Some o
               /\ handleKeyDown p Enter s = handleSelect p o s)
  /\ (~ highlightInRange s -> handleKeyDown p Enter s = s).
Proof.
  intro Hopen. unfold handleKeyDown, highlightInRange. rewrite Hopen. cbn [negb]. split.
  - intros [Hlo Hhi].
    destruct (optionAt (filteredOptions s) (highlightedIndex s)) as [o|] eqn:Hat.
    + exists o. split; [now apply (optionAt_Some _ _ _ Hat)|]. split; [reflexivity|].
      destruct (0 <=? highlightedIndex s) eqn:E; [reflexivity|apply Z.leb_gt in E; lia].
    + unfold optionAt in Hat. destruct (highlightedIndex s <? 0) eqn:E;
        [apply Z.ltb_lt in E; lia|].
      apply nth_error_None in Hat. lia.
  - intro Hout. destruct (0 <=? highlightedIndex s) eqn:E; [|reflexivity].
    apply Z.leb_le in E. rewrite optionAt_None; [reflexivity|]. lia.
Qed.

Lemma enter_selects_displayed_row_witness :
  (highlightInRange (openState [iphone; ipad] 1) ->
     exists o, In o (filteredOptions (openState [iphone; ipad] 1))
               /\ optionAt (filteredOptions (openState [iphone; ipad] 1))
                    (highlightedIndex (openState [iphone; ipad] 1)) = Some o
               /\ handleKeyDown fetchingProps Enter (openState [iphone; ipad] 1)
                  = handleSelect fetchingProps o (openState [iphone; ipad] 1))
  /\ (~ highlightInRange (openState [iphone; ipad] 1) ->
      handleKeyDown fetchingProps Enter (openState [iphone; ipad] 1)
      = openState [iphone; ipad] 1).
Proof.
  apply (enter_selects_displayed_row fetchingProps (openState [iphone; ipad] 1)).
  reflexivity.
Defined.

(** X20. Over an empty list ArrowDown leaves the index at 0, where no
    row is; Enter after it does nothing. *)
Theorem arrow_down_on_empty_list (p : Props) (s : State) :
  isOpen s = true -> filteredOptions s = [] -> -1 <= highlightedIndex s ->
  let s' := handleKeyDown p ArrowDown s in
  highlightedIndex s' = 0
  /\ ~ highlightInRange s'
  /\ handleKeyDown p Enter s' = s'.
Proof.
  intros Hopen Hempty Hlow.
  assert (Hs' : handleKeyDown p ArrowDown s = set_highlightedIndex 0 s).
  { unfold handleKeyDown. rewrite Hopen, Hempty. cbn [negb length Z.of_nat].
    destruct (highlightedIndex s <? 0 - 1) eqn:E; [apply Z.ltb_lt in E; lia|reflexivity]. }
  cbn zeta. rewrite Hs'. split; [reflexivity|]. split.
  - unfold highlightInRange. cbn [filteredOptions highlightedIndex set_highlightedIndex].
    rewrite Hempty. cbn. lia.
  - unfold handleKeyDown.
    cbn [isOpen filteredOptions highlightedIndex set_highlightedIndex].
    rewrite Hopen, Hempty. reflexivity.
Qed.

Lemma arrow_down_on_empty_list_witness :
  let s' := handleKeyDown fetchingProps ArrowDown (openState [] (-1)) in
  highlightedIndex s' = 0
  /\ ~ highlightInRange s'
  /\ handleKeyDown fetchingProps Enter s' = s'.
Proof.
  apply (arrow_down_on_empty_list fetchingProps (openState [] (-1))).
  - reflexivity.
  - reflexivity.
  - vm_compute. discriminate.
Defined.

(** ** Timers over whole runs *)

Lemma step_timers_count (p : Props) (s : State) (e : Event) :
  timersOwned s -> (length (timers s) <= 1)%nat ->
  (length (timers (step p s e)) <= 1)%nat.
Proof.
  intros Hown Hone. destruct e as [|q|ms|q results|q|optionId]; cbn [step].
  - destruct (performSearch_timers p [] s) as (Ht & _). now rewrite Ht.
  - destruct (input_arms_one p q s Hown) as (Ht & _). rewrite Ht. cbn. lia.
  - unfold elapse.
    match goal with
    | |- (length (timers (fold_left ?f ?ts ?s0)) <= 1)%nat =>
        destruct (fold_performSearch_timers p ts s0) as [Ht _]; rewrite Ht
    end.
    cbn [timers set_clock set_timers].
    pose proof (filter_length_le (fun t => negb (deadline t <=? clock s + ms)%nat) (timers s)).
    lia.
  - destruct (isPending q s); exact Hone.
  - destruct (isPending q s); exact Hone.
  - unfold handleRemoveTag. destruct (multiple p), (hasOnChange p); exact Hone.
Qed.

(** X21. Whatever happens to a mounted component, at most one timer is
    armed, and it is the one that [debounceRef] holds. *)
Theorem at_most_one_timer (p : Props) (opts : list AutocompleteOption)
    (events : list Event) :
  let s := run p (initialState opts) events in
  (length (timers s) <= 1)%nat /\ timersOwned s.
Proof.
  assert (Hgen : forall s, timersOwned s -> (length (timers s) <= 1)%nat ->
            (length (timers (run p s events)) <= 1)%nat /\ timersOwned (run p s events)).
  { induction events as [|e events IH]; intros s Hown Hone; [now split|].
    cbn [run fold_left]. apply IH.
    - now apply timersOwned_step.
    - now apply step_timers_count. }
  apply Hgen; [apply timersOwned_initial|cbn; lia].
Qed.

Lemma change_then_pause (p : Props) (q : str) (pause : nat) (s : State) :
  timersOwned s -> (debounceMs (configOf p) <= pause)%nat ->
  let s' := run p s [InputChanged q; Elapsed pause] in
  timers s' = [] /\ searchesRun s' = searchesRun s ++ [q].
Proof.
  intros Hown Hpause. cbn [run fold_left step].
  destruct (input_arms_one p q s Hown) as (Ht & _ & Hclk & Htr).
  destruct (elapse_after_deadline p pause (handleInputChange p q s) _ Ht) as [Ht' Hruns].
  { cbn [deadline]. rewrite Hclk. lia. }
  split; [exact Ht'|]. rewrite Hruns. cbn [timerQuery].
  unfold searchesRun. now rewrite Htr.
Qed.

(** X22. Query changes that are each followed by a pause of at least
    [debounceMs] run one search each, in the order of the changes. *)
Theorem spaced_changes_all_search (p : Props) (changes : list (str * nat)) :
  Forall (fun qg => (debounceMs (configOf p) <= snd qg)%nat) changes ->
  forall s, timersOwned s ->
    searchesRun (run p s (spacedChanges changes)) = searchesRun s ++ map fst changes.
Proof.
  induction 1 as [|[q pause] changes Hpause _ IH]; intros s Hown.
  - cbn. now rewrite app_nil_r.
  - unfold spacedChanges. cbn [flat_map fst snd app]. cbn [snd] in Hpause.
    change (run p s (InputChanged q :: Elapsed pause :: ?rest))
      with (run p (run p s [InputChanged q; Elapsed pause]) rest).
    destruct (change_then_pause p q pause s Hown Hpause) as [Ht Hruns].
    fold (spacedChanges changes). rewrite IH.
    + rewrite Hruns. cbn [map fst]. now rewrite <- app_assoc.
    + intros t Hin. rewrite Ht in Hin. destruct Hin.
Qed.

Lemma spaced_changes_all_search_witness :
  searchesRun (run fetchingProps (initialState [])
                 (spacedChanges [(lit "ip", 300%nat); (lit "iphone", 450%nat)]))
  = searchesRun (initialState []) ++ map fst [(lit "ip", 300%nat); (lit "iphone", 450%nat)].
Proof.
  apply (spaced_changes_all_search fetchingProps
           [(lit "ip", 300%nat); (lit "iphone", 450%nat)]).
  - repeat constructor.
  - intros t [].
Defined.

(** ** Grouping *)

Lemma existsb_str_In (k : str) (l : list str) :
  existsb (fun j => str_eqb j k) l = true <-> In k l.
Proof.
  rewrite existsb_exists. split.
  - intros [j [Hin Heq]]. apply str_eqb_eq in Heq. now subst.
  - intro Hin. exists k. split; [exact Hin|apply str_eqb_refl].
Qed.

Lemma existsb_str_not_In (k : str) (l : list str) :
  existsb (fun j => str_eqb j k) l = false <-> ~ In k l.
Proof.
  rewrite <- existsb_str_In. destruct (existsb (fun j => str_eqb j k) l); split;
    congruence.
Qed.

Lemma firstOccurrences_In (l : list str) :
  forall seen k, In k (firstOccurrences seen l) <-> In k l /\ ~ In k seen.
Proof.
  induction l as [|x l IH]; intros seen k; cbn [firstOccurrences].
  - split; [intros []|intros [[] _]].
  - destruct (existsb (fun j => str_eqb j x) seen) eqn:E.
    + apply existsb_str_In in E. rewrite IH. split.
      * intros [Hin Hns]. split; [now right|exact Hns].
      * intros [[->|Hin] Hns]; [contradiction|now split].
    + apply existsb_str_not_In in E. cbn [In]. rewrite IH. cbn [In]. split.
      * intros [<-|[Hin Hns]]; [split; [now left|exact E]|].
        split; [now right|tauto].
      * intros [[->|Hin] Hns]; [now left|].
        destruct (str_eqb x k) eqn:Exk; [apply str_eqb_eq in Exk; now left|].
        right. split; [exact Hin|]. intros [->|Hs]; [|contradiction].
        now rewrite str_eqb_refl in Exk.
Qed.

Lemma firstOccurrences_NoDup (l : list str) : forall seen, NoDup (firstOccurrences seen l).
Proof.
  induction l as [|x l IH]; intro seen; cbn [firstOccurrences]; [constructor|].
  destruct (existsb (fun j => str_eqb j x) seen); [apply IH|].
  constructor; [|apply IH].
  rewrite firstOccurrences_In. intros [_ Hns]. apply Hns. now left.
Qed.

Lemma firstOccurrences_snoc (l : list str) (k : str) :
  forall seen,
    firstOccurrences seen (l ++ [k])
    = firstOccurrences seen l
      ++ (if existsb (fun j => str_eqb j k) (seen ++ l) then [] else [k]).
Proof.
  induction l as [|x l IH]; intro seen; cbn [app firstOccurrences].
  - rewrite app_nil_r. now destruct (existsb (fun j => str_eqb j k) seen).
  - destruct (existsb (fun j => str_eqb j x) seen) eqn:E.
    + rewrite IH. f_equal.
      assert (Hsame : existsb (fun j => str_eqb j k) (seen ++ l)
                      = existsb (fun j => str_eqb j k) (seen ++ x :: l)).
      { apply eq_true_iff_eq. rewrite !existsb_str_In, !in_app_iff. cbn [In].
        apply existsb_str_In in E. split; [tauto|].
        intros [H|[->|H]]; tauto. }
      now rewrite Hsame.
    + rewrite IH. cbn [app]. f_equal. f_equal.
      assert (Hsame : existsb (fun j => str_eqb j k) (x :: seen ++ l)
                      = existsb (fun j => str_eqb j k) (seen ++ x :: l)).
      { apply eq_true_iff_eq. rewrite !existsb_str_In. cbn [In].
        rewrite !in_app_iff. cbn [In]. tauto. }
      now rewrite Hsame.
Qed.

Section Grouping.

Variable groupBy : AutocompleteOption -> option str.

Lemma categoriesOf_In (l : list AutocompleteOption) (k : str) :
  In k (categoriesOf groupBy l) <-> exists o, In o l /\ categoryOf groupBy o = k.
Proof.
  unfold categoriesOf. rewrite firstOccurrences_In, in_map_iff. split.
  - intros [[o [Hk Hin]] _]. now exists o.
  - intros [o [Hin Hk]]. split; [now exists o|intros []].
Qed.

Lemma categoriesOf_snoc (l : list AutocompleteOption) (o : AutocompleteOption) :
  categoriesOf groupBy (l ++ [o])
  = categoriesOf groupBy l
    ++ (if existsb (fun j => str_eqb j (categoryOf groupBy o)) (categoriesOf groupBy l)
        then [] else [categoryOf groupBy o]).
Proof.
  unfold categoriesOf. rewrite map_app. cbn [map]. rewrite firstOccurrences_snoc.
  cbn [app]. f_equal.
  assert (Hsame : existsb (fun j => str_eqb j (categoryOf groupBy o)) (map (categoryOf groupBy) l)
                  = existsb (fun j => str_eqb j (categoryOf groupBy o))
                      (firstOccurrences [] (map (categoryOf groupBy) l))).
  { apply eq_true_iff_eq. rewrite !existsb_str_In, firstOccurrences_In. cbn [In]. tauto. }
  now rewrite Hsame.
Qed.

Lemma filter_inCategory_snoc (k : str) (l : list AutocompleteOption) (o : AutocompleteOption) :
  filter (inCategory groupBy k) (l ++ [o])
  = filter (inCategory groupBy k) l ++ (if inCategory groupBy k o then [o] else []).
Proof. rewrite filter_app. reflexivity. Qed.

Lemma ownProperty_groups (k : str) (l : list AutocompleteOption) (ks : list str) :
  ownProperty k (map (fun k' => (k', filter (inCategory groupBy k') l)) ks)
  = if existsb (fun j => str_eqb j k) ks
    then Some (filter (inCategory groupBy k) l) else None.
Proof.
  induction ks as [|k' ks IH]; [reflexivity|].
  cbn [map ownProperty existsb]. destruct (str_eqb k' k) eqn:E; cbn [orb]; [|exact IH].
  apply str_eqb_eq in E. now subst.
Qed.

Lemma inCategory_sym (k : str) (o : AutocompleteOption) :
  inCategory groupBy k o = str_eqb k (categoryOf groupBy o).
Proof. unfold inCategory. apply str_eqb_sym. Qed.

Lemma filter_other_category (k : str) (l : list AutocompleteOption) (o : AutocompleteOption) :
  k <> categoryOf groupBy o ->
  filter (inCategory groupBy k) (l ++ [o]) = filter (inCategory groupBy k) l.
Proof.
  intro Hk. rewrite filter_inCategory_snoc, inCategory_sym.
  destruct (str_eqb k (categoryOf groupBy o)) eqn:E; [|apply app_nil_r].
  apply str_eqb_eq in E. contradiction.
Qed.

Lemma pushTo_groups (o : AutocompleteOption) (l : list AutocompleteOption) (ks : list str) :
  NoDup ks ->
  pushTo (categoryOf groupBy o) o (map (fun k' => (k', filter (inCategory groupBy k') l)) ks)
  = map (fun k' => (k', filter (inCategory groupBy k') (l ++ [o]))) ks.
Proof.
  induction ks as [|k' ks IH]; intro Hnd; [reflexivity|].
  apply NoDup_cons_iff in Hnd. destruct Hnd as [Hk' Hnd].
  cbn [map pushTo].
  destruct (str_eqb k' (categoryOf groupBy o)) eqn:E.
  - apply str_eqb_eq in E. f_equal.
    + f_equal. rewrite filter_inCategory_snoc, inCategory_sym.
      now rewrite <- E, str_eqb_refl.
    + apply map_ext_in. intros k Hk. f_equal. symmetry.
      apply filter_other_category. congruence.
  - f_equal; [|now apply IH]. f_equal. symmetry. apply filter_other_category.
    intro Heq. rewrite Heq, str_eqb_refl in E. discriminate.
Qed.

Lemma filter_absent_category (k : str) (l : list AutocompleteOption) :
  ~ In k (categoriesOf groupBy l) -> filter (inCategory groupBy k) l = [].
Proof.
  intro Hnot. destruct (filter (inCategory groupBy k) l) as [|o rest] eqn:E; [reflexivity|].
  assert (Hin : In o (filter (inCategory groupBy k) l)) by (rewrite E; now left).
  apply filter_In in Hin. destruct Hin as [Hin Hk]. apply str_eqb_eq in Hk.
  elim Hnot. apply categoriesOf_In. now exists o.
Qed.

(** One step of the [reduce] on the groups of the options seen so far. *)
Lemma groupReducer_groups (l : list AutocompleteOption) (o : AutocompleteOption) :
  groupReducer groupBy (groupsOf groupBy l) o
  = if existsb (fun j => str_eqb j (categoryOf groupBy o)) (categoriesOf groupBy l)
       || negb (inheritedKey (categoryOf groupBy o))
    then Some (groupsOf groupBy (l ++ [o]))
    else None.
Proof.
  unfold groupReducer, groupsOf. rewrite ownProperty_groups, categoriesOf_snoc.
  destruct (existsb (fun j => str_eqb j (categoryOf groupBy o)) (categoriesOf groupBy l))
    eqn:E; cbn [orb].
  - rewrite app_nil_r. f_equal. apply pushTo_groups. apply firstOccurrences_NoDup.
  - destruct (inheritedKey (categoryOf groupBy o)); cbn [negb]; [reflexivity|].
    f_equal. rewrite map_app. cbn [map]. f_equal.
    + apply map_ext_in. intros k Hk. f_equal. symmetry.
      apply filter_other_category. intros ->.
      apply existsb_str_not_In in E. contradiction.
    + rewrite filter_inCategory_snoc.
      rewrite filter_absent_category by (now apply existsb_str_not_In).
      now rewrite inCategory_sym, str_eqb_refl.
Qed.

Lemma reduceGroups_groups (l : list AutocompleteOption) :
  forall seen,
    existsb (fun o => inheritedKey (categoryOf groupBy o)) seen = false ->
    reduceGroups groupBy (groupsOf groupBy seen) l
    = if existsb (fun o => inheritedKey (categoryOf groupBy o)) l then None
      else Some (groupsOf groupBy (seen ++ l)).
Proof.
  induction l as [|o l IH]; intros seen Hseen.
  - cbn. now rewrite app_nil_r.
  - cbn [reduceGroups existsb]. rewrite groupReducer_groups.
    destruct (inheritedKey (categoryOf groupBy o)) eqn:Hinh; cbn [negb orb].
    + rewrite orb_false_r.
      destruct (existsb (fun j => str_eqb j (categoryOf groupBy o)) (categoriesOf groupBy seen))
        eqn:E; [|reflexivity].
      apply existsb_str_In, categoriesOf_In in E. destruct E as [o' [Hin Hk]].
      assert (Hcontra : existsb (fun o => inheritedKey (categoryOf groupBy o)) seen = true).
      { apply existsb_exists. exists o'. split; [exact Hin|congruence]. }
      congruence.
    + rewrite orb_true_r. rewrite IH.
      * now rewrite <- app_assoc.
      * rewrite existsb_app. cbn [existsb]. now rewrite Hseen, Hinh.
Qed.

(** What [groupedOptions] computes when a [groupBy] is supplied. *)
Lemma groupedOptions_groups (l : list AutocompleteOption) :
  groupedOptions (Some groupBy) l
  = if existsb (fun o => inheritedKey (categoryOf groupBy o)) l then None
    else Some (map (fun e => mkGroup (fst e) (snd e)) (entriesOrder (groupsOf groupBy l))).
Proof.
  unfold groupedOptions.
  pose proof (reduceGroups_groups l [] eq_refl) as H.
  change (groupsOf groupBy []) with (@nil (str * list AutocompleteOption)) in H.
  cbn [app] in H. rewrite H.
  now destruct (existsb (fun o => inheritedKey (categoryOf groupBy o)) l).
Qed.

End Grouping.

Lemma Permutation_filter_split {A} (f : A -> bool) (l : list A) :
  Permutation l (filter f l ++ filter (fun x => negb (f x)) l).
Proof.
  induction l as [|x l IH]; [constructor|].
  cbn [filter]. destruct (f x); cbn [negb app].
  - now apply perm_skip.
  - eapply perm_trans; [apply perm_skip, IH|]. apply Permutation_middle.
Qed.

Lemma entriesOrder_perm {V} (acc : list (str * V)) : Permutation acc (entriesOrder acc).
Proof.
  unfold entriesOrder.
  eapply perm_trans; [apply (Permutation_filter_split (fun e => isArrayIndex (fst e)))|].
  apply Permutation_app_tail. apply sort_perm.
Qed.

Lemma entriesOrder_no_index {V} (acc : list (str * V)) :
  (forall e, In e acc -> isArrayIndex (fst e) = false) -> entriesOrder acc = acc.
Proof.
  intro Hno. unfold entriesOrder.
  assert (Hnone : filter (fun e => isArrayIndex (fst e)) acc = []).
  { destruct (filter (fun e => isArrayIndex (fst e)) acc) as [|e rest] eqn:E; [reflexivity|].
    assert (Hin : In e (filter (fun e => isArrayIndex (fst e)) acc)) by (rewrite E; now left).
    apply filter_In in Hin. destruct Hin as [Hin He]. rewrite (Hno e Hin) in He. discriminate. }
  rewrite Hnone. cbn [sort app]. apply filter_keeps_all.
  intros e He. now rewrite (Hno e He).
Qed.

Lemma Permutation_concat_map {A B} (f : A -> list B) (l l' : list A) :
  Permutation l l' -> Permutation (concat (map f l)) (concat (map f l')).
Proof.
  induction 1 as [|x l l' _ IH|x y l|l l' l'' _ IH1 _ IH2]; cbn [map concat].
  - constructor.
  - now apply Permutation_app_head.
  - rewrite !app_assoc. apply Permutation_app_tail. apply Permutation_app_comm.
  - eapply perm_trans; eassumption.
Qed.

Section GroupingProperties.

Variable groupBy : AutocompleteOption -> option str.

Lemma concat_groups_nil (ks : list str) :
  concat (map (fun k => filter (inCategory groupBy k) []) ks) = [].
Proof. induction ks as [|k ks IH]; [reflexivity|exact IH]. Qed.

Lemma groups_without (x : AutocompleteOption) (l : list AutocompleteOption) (ks : list str) :
  ~ In (categoryOf groupBy x) ks ->
  map (fun k => filter (inCategory groupBy k) (x :: l)) ks
  = map (fun k => filter (inCategory groupBy k) l) ks.
Proof.
  intro Hnot. apply map_ext_in. intros k Hk. cbn [filter].
  rewrite inCategory_sym. destruct (str_eqb k (categoryOf groupBy x)) eqn:E; [|reflexivity].
  apply str_eqb_eq in E. subst k. contradiction.
Qed.

(** Keys that are distinct and cover the categories cut a list into
    groups that together hold every option once. *)
Lemma groups_partition (l : list AutocompleteOption) (ks : list str) :
  NoDup ks ->
  (forall o, In o l -> In (categoryOf groupBy o) ks) ->
  Permutation l (concat (map (fun k => filter (inCategory groupBy k) l) ks)).
Proof.
  intros Hnd. induction l as [|x l IH]; intro Hcover.
  - rewrite concat_groups_nil. constructor.
  - destruct (in_split _ _ (Hcover x (or_introl eq_refl))) as [ks1 [ks2 Hks]].
    assert (Hfresh : ~ In (categoryOf groupBy x) ks1 /\ ~ In (categoryOf groupBy x) ks2).
    { rewrite Hks in Hnd. apply NoDup_remove_2 in Hnd. rewrite in_app_iff in Hnd. tauto. }
    destruct Hfresh as [H1 H2].
    specialize (IH (fun o Ho => Hcover o (or_intror Ho))).
    rewrite Hks in IH |- *. rewrite !map_app, !concat_app in IH |- *.
    cbn [map concat] in IH |- *.
    rewrite (groups_without x l ks1 H1), (groups_without x l ks2 H2).
    cbn [filter]. rewrite inCategory_sym, str_eqb_refl. cbn [app].
    eapply perm_trans; [apply perm_skip, IH|]. apply Permutation_middle.
Qed.

(** X23. With a [groupBy], grouping fails exactly when some option's
    category is the name of a property that every object inherits, such as
    "constructor" or "toString": the accumulator already has something
    under that name, and it is not an array. *)
Theorem grouping_fails_on_inherited_key (l : list AutocompleteOption) :
  groupedOptions (Some groupBy) l = None
  <-> exists o, In o l /\ inheritedKey (categoryOf groupBy o) = true.
Proof.
  rewrite groupedOptions_groups, <- existsb_exists.
  destruct (existsb (fun o => inheritedKey (categoryOf groupBy o)) l); split;
    congruence.
Qed.

Lemma grouped_entries (l : list AutocompleteOption) (groups : list Group) :
  groupedOptions (Some groupBy) l = Some groups ->
  groups = map (fun e => mkGroup (fst e) (snd e)) (entriesOrder (groupsOf groupBy l)).
Proof.
  rewrite groupedOptions_groups.
  destruct (existsb (fun o => inheritedKey (categoryOf groupBy o)) l); congruence.
Qed.

Lemma groupsOf_keys (l : list AutocompleteOption) :
  map fst (groupsOf groupBy l) = categoriesOf groupBy l.
Proof. unfold groupsOf. rewrite map_map. cbn [fst]. apply map_id. Qed.

(** X24. When grouping succeeds, the groups have distinct categories,
    each group holds exactly the options of its category, in the order of
    the list, and is not empty; together the groups hold every option of
    the list once. *)
Theorem grouping_partitions (l : list AutocompleteOption) (groups : list Group) :
  groupedOptions (Some groupBy) l = Some groups ->
  NoDup (map groupCategory groups)
  /\ (forall g, In g groups ->
        groupOptions g = filter (inCategory groupBy (groupCategory g)) l
        /\ groupOptions g <> [])
  /\ Permutation l (concat (map groupOptions groups)).
Proof.
  intro H. apply grouped_entries in H. subst groups.
  pose proof (entriesOrder_perm (groupsOf groupBy l)) as Hperm.
  rewrite !map_map. cbn [groupCategory groupOptions].
  split; [|split].
  - apply Permutation_NoDup with (l := map fst (groupsOf groupBy l)).
    + now apply Permutation_map.
    + rewrite groupsOf_keys. apply firstOccurrences_NoDup.
  - intros g Hg. apply in_map_iff in Hg. destruct Hg as [[k v] [<- He]].
    cbn [fst snd groupCategory groupOptions].
    apply (Permutation_in _ (Permutation_sym Hperm)) in He.
    unfold groupsOf in He. apply in_map_iff in He. destruct He as [k' [Heq Hk']].
    injection Heq as Hk1 Hv. subst k' v. split; [reflexivity|].
    apply categoriesOf_In in Hk'. destruct Hk' as [o [Hin Hk]].
    intro Hempty.
    assert (Ho : In o (filter (inCategory groupBy k) l)).
    { apply filter_In. split; [exact Hin|]. unfold inCategory. now rewrite Hk, str_eqb_refl. }
    now rewrite Hempty in Ho.
  - eapply perm_trans; [|apply Permutation_concat_map, Hperm].
    unfold groupsOf. rewrite map_map. cbn [snd].
    apply groups_partition; [apply firstOccurrences_NoDup|].
    intros o Ho. apply categoriesOf_In. now exists o.
Qed.

(** X25. When no category reads as an array index, the groups come in
    the order in which their categories first occur in the list. *)
Theorem grouping_keeps_first_seen_order (l : list AutocompleteOption)
    (groups : list Group) :
  (forall o, In o l -> isArrayIndex (categoryOf groupBy o) = false) ->
  groupedOptions (Some groupBy) l = Some groups ->
  map groupCategory groups = categoriesOf groupBy l.
Proof.
  intros Hno H. apply grouped_entries in H. subst groups.
  rewrite entriesOrder_no_index.
  - rewrite map_map. cbn [groupCategory]. apply groupsOf_keys.
  - intros [k v] He. cbn [fst]. unfold groupsOf in He.
    apply in_map_iff in He. destruct He as [k' [Heq Hk']]. injection Heq as -> _.
    apply categoriesOf_In in Hk'. destruct Hk' as [o [Hin <-]]. now apply Hno.
Qed.

End GroupingProperties.

Lemma grouping_partitions_witness :
  NoDup (map groupCategory
           [mkGroup (lit "Smartphones") [phone; phone]; mkGroup (lit "Tablets") [tablet];
            mkGroup (lit "Other") [macbookPro]])
  /\ (forall g, In g [mkGroup (lit "Smartphones") [phone; phone];
                      mkGroup (lit "Tablets") [tablet]; mkGroup (lit "Other") [macbookPro]] ->
        groupOptions g
          = filter (inCategory byCategory (groupCategory g)) [phone; tablet; macbookPro; phone]
        /\ groupOptions g <> [])
  /\ Permutation [phone; tablet; macbookPro; phone]
       (concat (map groupOptions
                  [mkGroup (lit "Smartphones") [phone; phone];
                   mkGroup (lit "Tablets") [tablet]; mkGroup (lit "Other") [macbookPro]])).
Proof.
  apply (grouping_partitions byCategory [phone; tablet; macbookPro; phone]).
  vm_compute. reflexivity.
Defined.

Lemma grouping_keeps_first_seen_order_witness :
  map groupCategory
    [mkGroup (lit "Smartphones") [phone; phone]; mkGroup (lit "Tablets") [tablet];
     mkGroup (lit "Other") [macbookPro]]
  = categoriesOf byCategory [phone; tablet; macbookPro; phone].
Proof.
  apply (grouping_keeps_first_seen_order byCategory [phone; tablet; macbookPro; phone]).
  - intros o [<-|[<-|[<-|[<-|[]]]]]; vm_compute; reflexivity.
  - vm_compute. reflexivity.
Defined.

Example grouping_constructor_fails :
  groupedOptions (Some (fun _ => Some (lit "constructor"))) [iphone] = None.
Proof. reflexivity. Qed.

Example grouping_index_keys_first :
  option_map (map groupCategory)
    (groupedOptions (Some (fun o => Some (label o)))
       [plain "1" "b" None None None; plain "2" "10" None None None;
        plain "3" "2" None None None])
  = Some [lit "2"; lit "10"; lit "b"].
Proof. reflexivity. Qed.

(** ** Highlighting *)

Example highlight_example :
  highlightMatch (lit "MacBook Mac") (lit "mac")
  = Parts [Span (lit ""); Mark (lit "Mac"); Span (lit "Book "); Mark (lit "Mac");
           Span (lit "")].
Proof. reflexivity. Qed.

Lemma splitByMatches_concat (query : str) (s : str) :
  query <> [] ->
  forall skip cur, concat (splitByMatches query skip cur s) = rev cur ++ skipn skip s.
Proof.
  intro Hq. induction s as [|c s IH]; intros skip cur.
  - cbn [splitByMatches concat]. rewrite skipn_nil. reflexivity.
  - cbn [splitByMatches]. destruct skip as [|k].
    + destruct (matchesAt query (c :: s)).
      * cbn [concat]. rewrite IH. cbn [rev app].
        destruct query as [|q0 query]; [contradiction|].
        replace (length (q0 :: query) - 1)%nat with (length query) by (cbn [length]; lia).
        cbn [length firstn skipn app]. now rewrite firstn_skipn.
      * rewrite IH. cbn [rev skipn]. now rewrite <- app_assoc.
    + rewrite IH. reflexivity.
Qed.

Lemma renderParts_text (query : str) (parts : list str) :
  forall lastIndex, map nodeText (renderParts query lastIndex parts) = parts.
Proof.
  induction parts as [|part rest IH]; intro lastIndex; [reflexivity|].
  cbn [renderParts]. destruct (regexTest query lastIndex part) as [hit li].
  cbn [map]. rewrite IH. now destruct hit.
Qed.

(** X26. Highlighting never changes the text: the parts that
    [highlightMatch] returns, put together, are the text it was given. *)
Theorem highlight_preserves_text (text query : str) :
  shownText (highlightMatch text query) = text.
Proof.
  unfold highlightMatch. destruct query as [|q0 query]; [reflexivity|].
  cbn [shownText]. rewrite renderParts_text.
  rewrite splitByMatches_concat by discriminate. reflexivity.
Qed.

Lemma toLowerCase_length (s : str) : length (toLowerCase s) = length s.
Proof. apply length_map. Qed.

Lemma toLowerCase_skipn (k : nat) (s : str) : toLowerCase (skipn k s) = skipn k (toLowerCase s).
Proof. unfold toLowerCase. symmetry. apply skipn_map. Qed.

Lemma toLowerCase_firstn (k : nat) (s : str) : toLowerCase (firstn k s) = firstn k (toLowerCase s).
Proof. unfold toLowerCase. symmetry. apply firstn_map. Qed.

Lemma matchesAt_firstn (query s : str) :
  matchesAt query s = true -> toLowerCase (firstn (length query) s) = toLowerCase query.
Proof.
  unfold matchesAt. intro H. apply startsWith_iff in H. destruct H as [post H].
  rewrite toLowerCase_firstn, H, <- (toLowerCase_length query).
  rewrite firstn_app, firstn_all, Nat.sub_diag. cbn. apply app_nil_r.
Qed.

(** An occurrence of the query in a string is a match at some offset. *)
Lemma includes_matchesAt (query s : str) :
  includes (toLowerCase s) (toLowerCase query) = true ->
  exists k, (k + length query <= length s)%nat /\ matchesAt query (skipn k s) = true.
Proof.
  intro H. apply includes_iff in H. destruct H as [pre [post H]].
  exists (length pre). split.
  - rewrite <- (toLowerCase_length s), H, !length_app, toLowerCase_length. lia.
  - unfold matchesAt. rewrite toLowerCase_skipn, H.
    rewrite skipn_app, skipn_all, Nat.sub_diag. cbn [app skipn].
    apply startsWith_iff. now exists post.
Qed.

Lemma matchesAt_extend (query s tail : str) :
  matchesAt query s = true -> matchesAt query (s ++ tail) = true.
Proof.
  unfold matchesAt. rewrite toLowerCase_app, !startsWith_iff.
  intros [post ->]. exists (post ++ toLowerCase tail). now rewrite app_assoc.
Qed.

Lemma openPiece_noMatch (query cur s : str) :
  query <> [] -> openPieceClean query cur s ->
  includes (toLowerCase (rev cur)) (toLowerCase query) = false.
Proof.
  intros Hq Hclean. apply not_true_is_false. intro Hinc.
  apply includes_matchesAt in Hinc. destruct Hinc as [k [Hfit Hk]].
  assert (Hlen : (0 < length query)%nat) by (destruct query; [contradiction|cbn; lia]).
  rewrite length_rev in Hfit.
  specialize (Hclean k ltac:(lia)).
  rewrite skipn_app in Hclean.
  rewrite (matchesAt_extend query (skipn k (rev cur)) _ Hk) in Hclean. discriminate.
Qed.

Lemma splitByMatches_alternate (query : str) (s : str) :
  query <> [] ->
  forall skip cur,
    (skip = 0%nat -> openPieceClean query cur s) ->
    (skip <> 0%nat -> cur = []) ->
    piecesAlternate query true (splitByMatches query skip cur s).
Proof.
  intro Hq. induction s as [|c s IH]; intros skip cur Hclean Hskip.
  - cbn [splitByMatches piecesAlternate]. split; [|reflexivity].
    destruct skip as [|k].
    + apply openPiece_noMatch with (s := []); [exact Hq|now apply Hclean].
    + rewrite (Hskip ltac:(discriminate)). cbn [rev].
      destruct query as [|q0 query]; [contradiction|reflexivity].
  - cbn [splitByMatches]. destruct skip as [|k].
    + specialize (Hclean eq_refl). destruct (matchesAt query (c :: s)) eqn:Hm.
      * cbn [piecesAlternate]. split; [now apply openPiece_noMatch with (s := c :: s)|].
        split; [now apply matchesAt_firstn|].
        apply IH; [|intros _; reflexivity]. intros _ k Hk. cbn in Hk. lia.
      * apply IH; [|intro H0; now elim H0]. intros _ k Hk. cbn [length] in Hk.
        cbn [rev]. rewrite <- app_assoc. cbn [app].
        destruct (Nat.eq_dec k (length cur)) as [->|Hne].
        -- rewrite skipn_app, skipn_all2, length_rev, Nat.sub_diag by (rewrite length_rev; lia).
           exact Hm.
        -- apply Hclean. lia.
    + apply IH; [|intros _; apply Hskip; discriminate].
      intros _ j Hj. rewrite (Hskip ltac:(discriminate)) in Hj. cbn in Hj. lia.
Qed.

Lemma findMatch_includes (query : str) (s : str) (k : nat) :
  findMatch query s = Some k -> includes (toLowerCase s) (toLowerCase query) = true.
Proof.
  revert k. induction s as [|c s IH]; intro k; cbn [findMatch].
  - destruct (matchesAt query []) eqn:E; [|discriminate]. intros _.
    unfold matchesAt in E. change (toLowerCase []) with (@nil ascii) in *.
    cbn [includes]. now rewrite E.
  - destruct (matchesAt query (c :: s)) eqn:E.
    + intros _. unfold matchesAt in E.
      change (toLowerCase (c :: s)) with (lower_char c :: toLowerCase s) in *.
      cbn [includes]. now rewrite E.
    + destruct (findMatch query s) as [j|] eqn:Ej; [|discriminate]. intros _.
      change (toLowerCase (c :: s)) with (lower_char c :: toLowerCase s).
      cbn [includes]. rewrite (IH j eq_refl). apply orb_true_r.
Qed.

Lemma regexTest_plain (query : str) (lastIndex : nat) (part : str) :
  includes (toLowerCase part) (toLowerCase query) = false ->
  regexTest query lastIndex part = (false, 0%nat).
Proof.
  intro Hno. unfold regexTest.
  destruct (length part <? lastIndex)%nat; [reflexivity|].
  destruct (findMatch query (skipn lastIndex part)) as [k|] eqn:E; [|reflexivity].
  apply findMatch_includes in E.
  assert (Hwhole : includes (toLowerCase part) (toLowerCase query) = true).
  { apply includes_part with (w := toLowerCase (skipn lastIndex part)); [|exact E].
    exists (toLowerCase (firstn lastIndex part)), [].
    now rewrite app_nil_r, <- toLowerCase_app, firstn_skipn. }
  congruence.
Qed.

Lemma regexTest_match (query : str) (part : str) :
  toLowerCase part = toLowerCase query ->
  regexTest query 0 part = (true, length query).
Proof.
  intro Heq. unfold regexTest. cbn [Nat.ltb Nat.leb skipn].
  assert (Hm : matchesAt query part = true).
  { unfold matchesAt. rewrite Heq. apply startsWith_iff. exists []. now rewrite app_nil_r. }
  destruct part; cbn [findMatch]; now rewrite Hm.
Qed.

Lemma renderParts_alternate (query : str) (parts : list str) :
  forall (plainNext : bool) (lastIndex : nat),
    piecesAlternate query plainNext parts ->
    (plainNext = false -> lastIndex = 0%nat) ->
    Forall (nodeRight query) (renderParts query lastIndex parts).
Proof.
  induction parts as [|part rest IH]; intros plainNext lastIndex Halt Hli; [constructor|].
  cbn [renderParts]. cbn [piecesAlternate] in Halt. destruct plainNext.
  - destruct Halt as [Hno Hrest]. rewrite (regexTest_plain query lastIndex part Hno).
    constructor; [exact Hno|]. now apply (IH false 0%nat).
  - destruct Halt as [Heq Hrest]. rewrite (Hli eq_refl), (regexTest_match query part Heq).
    constructor; [exact Heq|]. apply (IH true (length query)); [exact Hrest|discriminate].
Qed.

(** X27. For a query that is not empty, every part that [highlightMatch]
    marks is the query, letter case apart, and no part that it leaves
    unmarked holds an occurrence of the query: the [lastIndex] that the
    calls of [test] hand on never makes a match go unmarked. *)
Theorem highlight_marks_matches (text query : str) (nodes : list Node) :
  highlightMatch text query = Parts nodes ->
  Forall (nodeRight query) nodes.
Proof.
  unfold highlightMatch. destruct query as [|q0 query]; [discriminate|].
  intro H. injection H as <-.
  apply (renderParts_alternate (q0 :: query) _ true 0%nat); [|reflexivity].
  apply splitByMatches_alternate; [discriminate| |congruence].
  intros _ k Hk. cbn in Hk. lia.
Qed.

Lemma highlight_marks_matches_witness :
  Forall (nodeRight (lit "mac"))
    [Span (lit ""); Mark (lit "Mac"); Span (lit "Book "); Mark (lit "Mac"); Span (lit "")].
Proof.
  apply (highlight_marks_matches (lit "MacBook Mac") (lit "mac")). reflexivity.
Defined.

(** ** The remote source of the demo *)

Lemma searchText_default (o : AutocompleteOption) :
  searchTextOf defaultFilterBy o
  = label o ++ lit " " ++ value o ++ lit " " ++ orEmpty (description o).
Proof. reflexivity. Qed.

Lemma includes_searchText (q : str) (o : AutocompleteOption) :
  includes (toLowerCase (label o)) (toLowerCase q)
  || match description o with
     | Some d => includes (toLowerCase d) (toLowerCase q)
     | None => false
     end = true ->
  includes (toLowerCase (searchTextOf defaultFilterBy o)) (toLowerCase q) = true.
Proof.
  intro H. rewrite searchText_default, !toLowerCase_app.
  apply orb_true_iff in H. destruct H as [H|H].
  - eapply includes_part; [|exact H]. exists []. eexists. reflexivity.
  - destruct (description o) as [d|]; [|discriminate]. cbn [orEmpty].
    eapply includes_part; [|exact H].
    exists (toLowerCase (label o) ++ toLowerCase (lit " ") ++ toLowerCase (value o)
            ++ toLowerCase (lit " ")), [].
    now rewrite app_nil_r, <- !app_assoc.
Qed.

Lemma matchOption_of_includes (config : SearchConfig) (filterBy : list Field) (q : str)
    (o : AutocompleteOption) :
  (algorithm config = Exact -> caseSensitive config = false) ->
  includes (toLowerCase (searchTextOf filterBy o)) (toLowerCase q) = true ->
  matchOption config filterBy q o = true.
Proof.
  intros Hcase Hinc. unfold matchOption. destruct (algorithm config).
  - now apply fuzzyMatch_of_includes.
  - now rewrite (Hcase eq_refl).
  - now rewrite Hinc.
  - now rewrite Hinc.
Qed.

(** X28. For a query that is not empty and has at least
    [minQueryLength] characters, and unless the configuration asks for the
    exact algorithm with case sensitivity, the filter that [performSearch]
    applies to an answer of the demo's remote source drops nothing: what is
    shown is the answer, ranked and cut to [maxResults]. (An empty query
    that is fetched, with [minQueryLength = 0], goes through the fallback
    branch instead.) *)
Theorem demo_answer_survives_filter (config : SearchConfig)
    (showRecent showTrending : bool) (q : str) (sampleOptions : list AutocompleteOption) :
  q <> [] -> minQueryLength config <= Z.of_nat (length q) ->
  (algorithm config = Exact -> caseSensitive config = false) ->
  returned (filterOptions config defaultFilterBy showRecent showTrending q
              (handleAsyncSearch sampleOptions q))
  = slice0 (rank q (handleAsyncSearch sampleOptions q)) (maxResults config).
Proof.
  intros Hq Hlen Hcase. unfold filterOptions.
  rewrite long_query_takes_search by assumption. cbn [returned].
  f_equal. f_equal. apply filter_keeps_all.
  intros o Ho. unfold handleAsyncSearch in Ho. apply filter_In in Ho.
  apply matchOption_of_includes; [exact Hcase|].
  apply includes_searchText. apply Ho.
Qed.

Lemma demo_answer_survives_filter_witness :
  returned (filterOptions DEFAULT_SEARCH_CONFIG defaultFilterBy true true (lit "ip")
              (handleAsyncSearch [phone; tablet; macbookPro] (lit "ip")))
  = slice0 (rank (lit "ip") (handleAsyncSearch [phone; tablet; macbookPro] (lit "ip")))
      (maxResults DEFAULT_SEARCH_CONFIG).
Proof.
  apply (demo_answer_survives_filter DEFAULT_SEARCH_CONFIG true true (lit "ip")
           [phone; tablet; macbookPro]).
  - discriminate.
  - vm_compute. discriminate.
  - discriminate.
Defined.

(** ** The threshold at its bounds *)

(** X29. At the two ends of the valid range the fuzzy match is no longer
    fuzzy: with the threshold 0 it accepts every text, with the threshold 1
    it accepts exactly the texts that contain the query, letter case apart. *)
Theorem fuzzyMatch_at_bounds (query text : str) :
  fuzzyMatch query text 0 = true
  /\ fuzzyMatch query text 1
     = includes (toLowerCase text) (toLowerCase query).
Proof.
  unfold fuzzyMatch.
  destruct (includes (toLowerCase text) (toLowerCase query)) eqn:Hinc; [now split|].
  assert (Hq : toLowerCase query <> []).
  { intro Hnil. rewrite Hnil, includes_empty in Hinc. discriminate. }
  split.
  - unfold split_ws.
    destruct (split_ws_from false (toLowerCase text)) as [|w ws] eqn:E;
      [now elim (split_ws_from_nonempty false (toLowerCase text))|].
    cbn [existsb]. rewrite word_match_low; [reflexivity|exact Hq|apply Qle_refl].
  - apply not_true_is_false. intro Hex.
    apply existsb_exists in Hex. destruct Hex as [w [Hin Hw]].
    apply word_match_high in Hw; [|apply Qle_refl].
    apply split_ws_from_part in Hin.
    rewrite (includes_part _ _ _ Hin Hw) in Hinc. discriminate.
Qed.
